(** * Query-serving pipeline of the offline RAG chatbot

    A shallow embedding of [src/chatbot.py] (query cache, context
    assembly, response sanitisation, bounded-time generation) and of the
    request handler of [bot_server.py], with the properties of the
    specification stated against it.  Further sections embed the code
    around it: the chat loop of [main.py], the model cache of
    [src/model_loader.py], the batched indexing of [src/vector_store.py],
    the document scan of [main.py] with the loader choice of
    [src/document_processor.py], and the server address of
    [bot_client.py].

    Modelling conventions.
    - A Python [str] is a list of code points.  The alphabet is Latin-1:
      an [ascii] value [c] stands for the code point [U+00c].  On that
      alphabet [str.lower], [str.strip], [str.split] and the regular
      expression classes used by the source are finite tables, written out
      below.
    - Durations are numbers of milliseconds, in [N].
    - The retrieval/generation chain is an oracle: for a query it says how
      long the call runs and how it ends.  The Ollama service, the file
      system and the document loaders are oracles in the same way. *)

From Stdlib Require Import ZArith NArith List Ascii String Bool Lia DecimalString.
From stdpp Require Import base decidable list gmap strings.
Import ListNotations.

Local Open Scope list_scope.
Local Open Scope nat_scope.

(** ** Python text *)

Module Py.

Definition str := list ascii.

(** A literal of the source. *)
Definition lit (s : string) : str := list_ascii_of_string s.

Definition LF : ascii := ascii_of_nat 10.

Definition ord (c : ascii) : nat := nat_of_ascii c.

(** [str.isspace] on one code point below 256: U+0009..U+000D,
    U+001C..U+0020, U+0085 and U+00A0.  The same table drives [str.strip],
    [str.split] without argument and the class [\s] of [re]. *)
Definition isspace (c : ascii) : bool :=
  let n := ord c in
  ((9 <=? n) && (n <=? 13)) || ((28 <=? n) && (n <=? 32))
  || (n =? 133) || (n =? 160).

(** [str.lower] on one code point below 256: A-Z and the upper-case
    letters U+00C0..U+00DE (without the multiplication sign U+00D7) move up
    by 32; everything else stays. *)
Definition lower_char (c : ascii) : ascii :=
  let n := ord c in
  if ((65 <=? n) && (n <=? 90))
     || ((192 <=? n) && (n <=? 222) && negb (n =? 215))
  then ascii_of_nat (n + 32) else c.

Definition lower (s : str) : str := map lower_char s.

Fixpoint lstrip (s : str) : str :=
  match s with
  | [] => []
  | c :: s' => if isspace c then lstrip s' else s
  end.

Fixpoint rstrip (s : str) : str :=
  match s with
  | [] => []
  | c :: s' =>
      match rstrip s' with
      | [] => if isspace c then [] else [c]
      | r => c :: r
      end
  end.

(** [s.strip()] *)
Definition strip (s : str) : str := rstrip (lstrip s).

(** [s.split(sep)] for a one-character separator: never empty. *)
Fixpoint split_on (sep : ascii) (s : str) : list str :=
  match s with
  | [] => [[]]
  | c :: s' =>
      if decide (c = sep) then [] :: split_on sep s'
      else match split_on sep s' with
           | h :: t => (c :: h) :: t
           | [] => [[c]]
           end
  end.

(** [s.split()]: maximal runs of non-space characters. *)
Fixpoint split (s : str) : list str :=
  match s with
  | [] => []
  | c :: s' =>
      if isspace c then split s'
      else match s' with
           | [] => [[c]]
           | c' :: _ =>
               if isspace c' then [c] :: split s'
               else match split s' with
                    | w :: ws => (c :: w) :: ws
                    | [] => [[c]]
                    end
           end
  end.

(** [sep.join(parts)] *)
Fixpoint join (sep : str) (parts : list str) : str :=
  match parts with
  | [] => []
  | [p] => p
  | p :: rest => p ++ sep ++ join sep rest
  end.

(** [sub in s] *)
Fixpoint startswith (sub s : str) : bool :=
  match sub, s with
  | [], _ => true
  | _ :: _, [] => false
  | a :: sub', b :: s' => if Ascii.eqb a b then startswith sub' s' else false
  end.

Fixpoint contains (sub s : str) : bool :=
  if startswith sub s then true
  else match s with
       | [] => false
       | _ :: s' => contains sub s'
       end.

(** [len(set(l))] *)
Definition distinct (l : list str) : nat := length (remove_dups l).

(** [s.encode()]: UTF-8 of code points below 256. *)
Definition encode_char (c : ascii) : list Z :=
  let n := Z.of_nat (ord c) in
  if (n <? 128)%Z then [n]
  else [Z.lor 192 (Z.shiftr n 6); Z.lor 128 (Z.land n 63)].

Definition encode (s : str) : list Z := flat_map encode_char s.

End Py.

Import Py.

(** ** [hashlib.md5(...).hexdigest()]

    The digest of RFC 1321 over 32-bit words kept in [Z], additions wrapped
    modulo [2^32]. *)

Module MD5.

Local Open Scope Z_scope.

Definition wrap (x : Z) : Z := x mod 2 ^ 32.

Definition rotl (x n : Z) : Z :=
  wrap (Z.lor (Z.shiftl x n) (Z.shiftr x (32 - n))).

Definition lnot32 (x : Z) : Z := Z.lxor x 4294967295.

Definition sines : list Z :=
  [ 0xd76aa478; 0xe8c7b756; 0x242070db; 0xc1bdceee;
    0xf57c0faf; 0x4787c62a; 0xa8304613; 0xfd469501;
    0x698098d8; 0x8b44f7af; 0xffff5bb1; 0x895cd7be;
    0x6b901122; 0xfd987193; 0xa679438e; 0x49b40821;
    0xf61e2562; 0xc040b340; 0x265e5a51; 0xe9b6c7aa;
    0xd62f105d; 0x02441453; 0xd8a1e681; 0xe7d3fbc8;
    0x21e1cde6; 0xc33707d6; 0xf4d50d87; 0x455a14ed;
    0xa9e3e905; 0xfcefa3f8; 0x676f02d9; 0x8d2a4c8a;
    0xfffa3942; 0x8771f681; 0x6d9d6122; 0xfde5380c;
    0xa4beea44; 0x4bdecfa9; 0xf6bb4b60; 0xbebfbc70;
    0x289b7ec6; 0xeaa127fa; 0xd4ef3085; 0x04881d05;
    0xd9d4d039; 0xe6db99e5; 0x1fa27cf8; 0xc4ac5665;
    0xf4292244; 0x432aff97; 0xab9423a7; 0xfc93a039;
    0x655b59c3; 0x8f0ccc92; 0xffeff47d; 0x85845dd1;
    0x6fa87e4f; 0xfe2ce6e0; 0xa3014314; 0x4e0811a1;
    0xf7537e82; 0xbd3af235; 0x2ad7d2bb; 0xeb86d391 ].

Definition shifts : list Z :=
  [ 7; 12; 17; 22; 7; 12; 17; 22; 7; 12; 17; 22; 7; 12; 17; 22;
    5; 9; 14; 20; 5; 9; 14; 20; 5; 9; 14; 20; 5; 9; 14; 20;
    4; 11; 16; 23; 4; 11; 16; 23; 4; 11; 16; 23; 4; 11; 16; 23;
    6; 10; 15; 21; 6; 10; 15; 21; 6; 10; 15; 21; 6; 10; 15; 21 ].

Record state := State { sa : Z; sb : Z; sc : Z; sd : Z }.

Definition init : state :=
  State 0x67452301 0xefcdab89 0x98badcfe 0x10325476.

(** Little-endian 32-bit words of a block. *)
Fixpoint words (n : nat) (bytes : list Z) : list Z :=
  match n, bytes with
  | S n', b0 :: b1 :: b2 :: b3 :: rest =>
      (b0 + 256 * (b1 + 256 * (b2 + 256 * b3))) :: words n' rest
  | _, _ => []
  end.

Definition round (m : list Z) (st : state) (i : nat) : state :=
  let '(State a b c d) := st in
  let iz := Z.of_nat i in
  let '(f, g) :=
    match (i / 16)%nat with
    | 0%nat => (Z.lor (Z.land b c) (Z.land (lnot32 b) d), iz)
    | 1%nat => (Z.lor (Z.land d b) (Z.land (lnot32 d) c), (5 * iz + 1) mod 16)
    | 2%nat => (Z.lxor b (Z.lxor c d), (3 * iz + 5) mod 16)
    | _ => (Z.lxor c (Z.lor b (lnot32 d)), (7 * iz) mod 16)
    end in
  let f' := wrap (f + a + nth i sines 0 + nth (Z.to_nat g) m 0) in
  State d (wrap (b + rotl f' (nth i shifts 0))) b c.

Definition block (st : state) (bytes : list Z) : state :=
  let m := words 16 bytes in
  let '(State a b c d) := fold_left (round m) (seq 0 64) st in
  State (wrap (sa st + a)) (wrap (sb st + b))
        (wrap (sc st + c)) (wrap (sd st + d)).

Fixpoint blocks (n : nat) (st : state) (bytes : list Z) : state :=
  match n with
  | O => st
  | S n' => blocks n' (block st (firstn 64 bytes)) (skipn 64 bytes)
  end.

Fixpoint le_bytes (n : nat) (x : Z) : list Z :=
  match n with
  | O => []
  | S n' => (x mod 256) :: le_bytes n' (x / 256)
  end.

Definition pad (msg : list Z) : list Z :=
  let len := Z.of_nat (length msg) in
  let zeros := Z.to_nat ((55 - len) mod 64) in
  msg ++ [128] ++ repeat 0 zeros ++ le_bytes 8 ((8 * len) mod 2 ^ 64).

Definition digest (msg : list Z) : list Z :=
  let p := pad msg in
  let '(State a b c d) := blocks (length p / 64) init p in
  le_bytes 4 a ++ le_bytes 4 b ++ le_bytes 4 c ++ le_bytes 4 d.

Definition hex_digit (x : Z) : ascii :=
  if x <? 10 then ascii_of_nat (48 + Z.to_nat x)
  else ascii_of_nat (87 + Z.to_nat x).

Definition hexdigest (msg : list Z) : str :=
  flat_map (fun b => [hex_digit (b / 16); hex_digit (b mod 16)]) (digest msg).

End MD5.

(** ** Response sanitisation ([src/chatbot.py]) *)

Definition NO_INFORMATION : str :=
  lit "I don't have that information in the provided documents.".

(** *** [_clean_response]

    Every leak pattern has the shape [\n\s*KEYWORD] and is searched with
    [re.IGNORECASE]; a pattern is kept as its keyword. *)

Definition leak_patterns : list str :=
  [ lit "Question:"; lit "Context:"; lit "User:";
    lit "Assistant:"; lit "Rules:"; lit "Answer based" ].

(** The keyword, letter case ignored, at the head of [s]. *)
Fixpoint keyword_at (kw s : str) : bool :=
  match kw, s with
  | [], _ => true
  | _ :: _, [] => false
  | k :: kw', c :: s' =>
      if Ascii.eqb (lower_char c) (lower_char k) then keyword_at kw' s'
      else false
  end.

(** [\s*KEYWORD] at the head of [s]. *)
Fixpoint spaces_keyword_at (kw s : str) : bool :=
  if keyword_at kw s then true
  else match s with
       | [] => false
       | c :: s' => if isspace c then spaces_keyword_at kw s' else false
       end.

(** [\n\s*KEYWORD] at the head of [s]. *)
Definition pattern_at (kw s : str) : bool :=
  match s with
  | [] => false
  | c :: s' => if Ascii.eqb c LF then spaces_keyword_at kw s' else false
  end.

(** [re.search(pattern, s, re.IGNORECASE)]: the start of the leftmost
    match, [None] without a match. *)
Fixpoint re_search (kw s : str) : option nat :=
  if pattern_at kw s then Some 0
  else match s with
       | [] => None
       | _ :: s' => S <$> re_search kw s'
       end.

Definition clean_step (response pattern : str) : str :=
  match re_search pattern response with
  | Some start => strip (take start response)
  | None => response
  end.

Definition _clean_response (response : str) : str :=
  let response := strip response in
  let response := fold_left clean_step leak_patterns response in
  strip response.

(** *** [_detect_repetition] *)

(** [l[-4:-1]] *)
Definition last_four_but_one {A} (l : list A) : list A :=
  let n := length l in
  take ((n - 1) - (n - 4)) (drop (n - 4) l).

(** [[' '.join(words[i:i+5]) for i in range(len(words)-5)]] *)
Definition five_word_phrases (words : list str) : list str :=
  map (fun i => join (lit " ") (take 5 (drop i words)))
      (seq 0 (length words - 5)).

(** [phrase_counts[phrase]] once the counting loop has run. *)
Definition phrase_count (phrases : list str) (phrase : str) : nat :=
  length (filter (fun p => p = phrase) phrases).

(** The loop [for i, phrase in enumerate(phrases)], from index [i] on. *)
Fixpoint first_repeated (all : list str) (i : nat) (phrases : list str)
  : option nat :=
  match phrases with
  | [] => None
  | phrase :: rest =>
      if 2 <? phrase_count all phrase then Some i
      else first_repeated all (S i) rest
  end.

Definition _detect_repetition (response : str) : str :=
  if bool_decide (response = []) || (length response <? 100) then response
  else
    let sentences := split_on "." response in
    let last_three :=
      map (fun s => lower (strip s))
          (filter (fun s => strip s <> []) (last_four_but_one sentences)) in
    let sentence_repeat :=
      (3 <? length sentences) &&
      match last_three with
      | [s0; s1; s2] =>
          bool_decide (s0 = s1) || bool_decide (s1 = s2)
          || forallb (fun s => distinct (take 5 (split s)) <? 3) last_three
      | _ => false
      end in
    if sentence_repeat
    then join (lit ". ") (take (length sentences / 2) sentences) ++ lit "."
    else
      let words := split (lower response) in
      let phrases := five_word_phrases words in
      let cut :=
        if 20 <? length words
        then if existsb (fun p => 2 <? phrase_count phrases p) phrases
             then first_repeated phrases 0 phrases
             else None
        else None in
      match cut with
      | Some i =>
          let cut_point := i * 5 + length (split (nth i phrases [])) in
          join (lit " ") (take cut_point words) ++ lit "."
      | None => response
      end.

(** *** [_validate_context_response] *)

Definition generic_indicators : list str :=
  [ lit "as an ai"; lit "i'm an ai"; lit "i can help you with";
    lit "here are some general"; lit "typically,";
    lit "generally speaking"; lit "in general,"; lit "commonly,";
    lit "it is widely known"; lit "based on my training";
    lit "from what i know" ].

(** The loop [for indicator in generic_indicators]. *)
Fixpoint validate_loop (indicators : list str) (response_lower response : str)
  : str :=
  match indicators with
  | [] => response
  | indicator :: rest =>
      if contains indicator response_lower then NO_INFORMATION
      else validate_loop rest response_lower response
  end.

Definition _validate_context_response (response : str) : str :=
  let response_lower := lower response in
  validate_loop generic_indicators response_lower response.

(** The three stages in the order [ask_question] applies them. *)
Definition sanitize (result : str) : str :=
  _validate_context_response (_detect_repetition (_clean_response result)).

(** ** Context assembly: [_format_docs] *)

Record Document := Doc { page_content : str }.

Definition NO_DOCUMENTS : str := lit "No relevant documents found.".
Definition MAX_CONTEXT_LENGTH : nat := 12 * 1000.
Definition TRUNCATION_MARK : str := LF :: lit "[... truncated ...]".

(** [doc.page_content[:200].strip()] *)
Definition fingerprint (doc : Document) : str :=
  strip (take 200 (page_content doc)).

(** The deduplication loop, with its two accumulators. *)
Fixpoint dedup_loop (unique_docs : list Document) (seen_content : gset str)
    (docs : list Document) : list Document :=
  match docs with
  | [] => unique_docs
  | doc :: rest =>
      if decide (fingerprint doc ∈ seen_content)
      then dedup_loop unique_docs seen_content rest
      else dedup_loop (unique_docs ++ [doc])
                      ({[fingerprint doc]} ∪ seen_content) rest
  end.

Definition unique_docs (docs : list Document) : list Document :=
  dedup_loop [] ∅ docs.

Definition format_doc (doc : Document) : str :=
  lit "- " ++ join (lit " ") (split (strip (page_content doc))).

Definition truncate (formatted : str) : str :=
  if MAX_CONTEXT_LENGTH <? length formatted
  then take MAX_CONTEXT_LENGTH formatted ++ TRUNCATION_MARK
  else formatted.

Definition _format_docs (docs : list Document) : str :=
  match docs with
  | [] => NO_DOCUMENTS
  | _ =>
      let formatted_docs := map format_doc (unique_docs docs) in
      truncate (join [LF; LF] formatted_docs)
  end.

(** ** The query cache: a [collections.OrderedDict]

    Keys in insertion order, each once. *)

Definition CACHE_SIZE : nat := 100.
Definition ENABLE_QUERY_CACHE : bool := true.

Module OrderedDict.

Definition t := list (str * str).

(** [d[k]] / [k in d] *)
Fixpoint get (k : str) (d : t) : option str :=
  match d with
  | [] => None
  | (k', v) :: d' => if decide (k = k') then Some v else get k d'
  end.

(** [d[k] = v]: a present key keeps its place, a new key goes last. *)
Fixpoint set (k v : str) (d : t) : t :=
  match d with
  | [] => [(k, v)]
  | (k', v') :: d' =>
      if decide (k = k') then (k, v) :: d' else (k', v') :: set k v d'
  end.

(** [d.popitem(last=False)] on a dictionary that is not empty. *)
Definition popitem_first (d : t) : t := tail d.

(** [d.move_to_end(k)]: what a least-recently-used cache does on access.
    The source never calls it. *)
Definition move_to_end (k : str) (d : t) : t :=
  match get k d with
  | Some v => filter (fun kv => kv.1 <> k) d ++ [(k, v)]
  | None => d
  end.

Definition keys (d : t) : list str := map fst d.

End OrderedDict.

(** ** [ask_question] *)

(** The values [json.loads] can hand over as the question (numbers with a
    fraction left out); lists and objects by their number of items. *)
Inductive pyval :=
| PyNone
| PyBool (b : bool)
| PyInt (z : Z)
| PyStr (s : str)
| PyList (items : nat)
| PyDict (items : nat).

(** [bool(v)] *)
Definition truthy (v : pyval) : bool :=
  match v with
  | PyNone => false
  | PyBool b => b
  | PyInt z => negb (z =? 0)%Z
  | PyStr s => negb (bool_decide (s = []))
  | PyList n | PyDict n => negb (n =? 0)
  end.

(** [type(v).__name__] *)
Definition type_name (v : pyval) : str :=
  match v with
  | PyNone => lit "NoneType"
  | PyBool _ => lit "bool"
  | PyInt _ => lit "int"
  | PyStr _ => lit "str"
  | PyList _ => lit "list"
  | PyDict _ => lit "dict"
  end.

(** Where an exception stands with respect to the [except] clauses of
    [ask_question] and of its callers. *)
Inductive exc_class :=
| FuturesTimeoutError   (* concurrent.futures.TimeoutError *)
| OtherException        (* any other subclass of Exception *)
| KeyboardInterrupt     (* no Exception; the chat loop of main has a
                           clause of its own for it *)
| BaseExceptionOnly.    (* SystemExit, GeneratorExit, ... *)

Record pyexc := PyExc { exc_kind : exc_class; exc_str : str }.

Definition is_Exception (e : pyexc) : bool :=
  match exc_kind e with
  | KeyboardInterrupt | BaseExceptionOnly => false
  | _ => true
  end.

(** [v.strip] on a value without that attribute. *)
Definition AttributeError_strip (v : pyval) : pyexc :=
  PyExc OtherException
        (lit "'" ++ type_name v ++ lit "' object has no attribute 'strip'").

(** How one call [chain.invoke(query)] ends.  The chain of [create_chatbot]
    ends in [StrOutputParser()]: what it returns is a [str], and the test
    [isinstance(result, str)] of [ask_question] holds. *)
Inductive outcome :=
| Returns (text : str)
| Raises (e : pyexc).

Inductive behaviour :=
| Finishes (after : N) (o : outcome)
| Blocks.

Record chain := Chain { invoke : str -> behaviour }.

(** The two warnings start with U+26A0 U+FE0F, outside the alphabet of the
    model; they are carried as the bytes of the source file and no text
    function is ever applied to them. *)
Definition NOT_INITIALIZED : str := lit "⚠️ Chatbot not initialized.".
Definition INVALID_QUESTION : str := lit "⚠️ Please provide a valid question.".
Definition ERROR_MESSAGE : str :=
  lit "I encountered an error processing your request.".

(** The module state: the global [_query_cache], and as a ghost field the
    queries passed to [chain.invoke] so far. *)
Record world := World { _query_cache : OrderedDict.t; chain_calls : list str }.

Definition initial_world : world := World [] [].

Inductive call_result :=
| Returned (value : str) (elapsed : N)
| Raised (e : pyexc)
| NeverReturns.

Definition query_hash (query : str) : str :=
  let query_normalized := lower (strip query) in
  MD5.hexdigest (encode query_normalized).

(** [_query_cache[query_hash] = result] followed by the size check. *)
Definition cache_store (key result : str) (d : OrderedDict.t) : OrderedDict.t :=
  let d := OrderedDict.set key result d in
  if CACHE_SIZE <? length d then OrderedDict.popitem_first d else d.

(** The body of [ask_question] from the cache miss on.  The executor is
    left through the [with] statement on every path, and leaving it runs
    [shutdown(wait=True)]: control comes back only when the submitted call
    has finished. *)
Definition generate (w : world) (ch : chain) (query : str) (timeout : N)
  : call_result * world :=
  let w := World (_query_cache w) (chain_calls w ++ [query]) in
  match invoke ch query with
  | Blocks => (NeverReturns, w)
  | Finishes after o =>
      if (timeout <? after)%N then (Returned NO_INFORMATION after, w)
      else
        match o with
        | Raises e =>
            match exc_kind e with
            | FuturesTimeoutError => (Returned NO_INFORMATION after, w)
            | OtherException => (Returned ERROR_MESSAGE after, w)
            | KeyboardInterrupt | BaseExceptionOnly => (Raised e, w)
            end
        | Returns result =>
            let result := sanitize result in
            let cache :=
              if ENABLE_QUERY_CACHE && negb (bool_decide (result = []))
              then cache_store (query_hash query) result (_query_cache w)
              else _query_cache w in
            (Returned result after, World cache (chain_calls w))
        end
  end.

Definition ask_question (w : world) (ch : option chain) (query : pyval)
    (timeout : N) : call_result * world :=
  match ch with
  | None => (Returned NOT_INITIALIZED 0, w)
  | Some ch =>
      if negb (truthy query) then (Returned INVALID_QUESTION 0, w)
      else
        match query with
        | PyStr q =>
            if bool_decide (strip q = [])
            then (Returned INVALID_QUESTION 0, w)
            else
              let cached :=
                if ENABLE_QUERY_CACHE
                then OrderedDict.get (query_hash q) (_query_cache w)
                else None in
              match cached with
              | Some answer => (Returned answer 0, w)
              | None => generate w ch q timeout
              end
        | other => (Raised (AttributeError_strip other), w)
        end
  end.

(** [clear_query_cache] *)
Definition clear_query_cache (w : world) : world :=
  World [] (chain_calls w).

(** [timeout=60], in milliseconds. *)
Definition DEFAULT_TIMEOUT : N := 60000.

(** ** [handle_client] ([bot_server.py]) *)

(** What the handler finds on the socket. *)
Inductive request :=
| NoData                              (* recv returned nothing *)
| NotUtf8                             (* decode raises UnicodeDecodeError *)
| NotJson                             (* json.loads raises JSONDecodeError *)
| JsonNotObject                       (* valid JSON without a [get] method *)
| JsonObject (question : option pyval).

Record response := Response {
  status : str;
  answer : str;
  time : option N
}.

Inductive handled :=
| Sent (r : response)       (* one response written, socket closed *)
| ClosedWithoutResponse     (* socket closed, nothing written *)
| Stuck.                    (* [ask_question] has not come back *)

Definition EMPTY_QUESTION : str := lit "Empty question received.".
Definition STILL_LOADING : str :=
  lit "System is still loading models. Please wait.".

(** Steps 2 and 3 of the handler, once [question] is bound. *)
Definition process (w : world) (rag_chain : option chain) (is_ready : bool)
    (question : pyval) : handled * world :=
  if negb (truthy question)
  then (Sent (Response (lit "error") EMPTY_QUESTION None), w)
  else if negb is_ready
  then (Sent (Response (lit "error") STILL_LOADING None), w)
  else
    match ask_question w rag_chain question DEFAULT_TIMEOUT with
    | (Returned answer_text elapsed, w') =>
        (Sent (Response (lit "success") answer_text (Some elapsed)), w')
    | (Raised e, w') =>
        if is_Exception e
        then (Sent (Response (lit "error")
                             (lit "Internal Error: " ++ exc_str e) None), w')
        else (ClosedWithoutResponse, w')
    | (NeverReturns, w') => (Stuck, w')
    end.

Definition handle_client (w : world) (rag_chain : option chain)
    (is_ready : bool) (req : request) : handled * world :=
  match req with
  | NoData => (ClosedWithoutResponse, w)
  | NotUtf8 => (ClosedWithoutResponse, w)
  | NotJson => process w rag_chain is_ready (PyStr [])
  | JsonNotObject => (ClosedWithoutResponse, w)
  | JsonObject None => process w rag_chain is_ready (PyStr [])
  | JsonObject (Some question) => process w rag_chain is_ready question
  end.

(** ** Runs of the pipeline *)

Inductive operation :=
| Ask (ch : option chain) (query : pyval) (timeout : N)
| Clear.

Definition step (w : world) (op : operation) : world :=
  match op with
  | Ask ch query timeout => (ask_question w ch query timeout).2
  | Clear => clear_query_cache w
  end.

Definition run (ops : list operation) (w : world) : world :=
  fold_left step ops w.

(** ** Vocabulary of the statements *)

(** [sub] occurs in [s] as a contiguous run. *)
Definition occurs_in (sub s : str) : Prop :=
  exists before after, s = before ++ sub ++ after.

(** A value that came out of the three sanitisation stages, in the order
    leak stripping, repetition detection, provenance validation, and is not
    the empty string. *)
Definition sanitized (value : str) : Prop :=
  value <> [] /\
  exists raw,
    value = _validate_context_response (_detect_repetition (_clean_response raw)).


(** ** Chains and requests used in the examples *)

(** A chain that returns [text] after [after] milliseconds. *)
Definition answering (text : str) (after : N) : chain :=
  Chain (fun _ => Finishes after (Returns text)).

(** A chain that answers every query at once with a text of its own. *)
Definition echo : chain :=
  Chain (fun query => Finishes 1 (Returns (lit "answer to " ++ query))).

Definition numbered_question (n : nat) : str :=
  lit "question " ++ lit (NilEmpty.string_of_uint (Nat.to_uint n)).

Definition ask_numbered (n : nat) : operation :=
  Ask (Some echo) (PyStr (numbered_question n)) DEFAULT_TIMEOUT.

(** [CACHE_SIZE] distinct questions, the first one asked again, then one
    more distinct question. *)
Definition eviction_scenario : list operation :=
  map ask_numbered (seq 0 CACHE_SIZE) ++ [ask_numbered 0; ask_numbered CACHE_SIZE].

(** Three fragments; the third repeats the first 200 characters of the
    first and differs after them. *)
Definition fragment_one : Document := Doc (repeat "a"%char 200 ++ lit " first").
Definition fragment_two : Document := Doc (lit "gamma  delta").
Definition fragment_three : Document :=
  Doc (repeat "a"%char 200 ++ lit " second").

(** The earlier of two optional positions. *)
Definition earlier (a b : option nat) : option nat :=
  match a, b with
  | Some x, Some y => Some (min x y)
  | Some x, None => Some x
  | None, _ => b
  end.

(** The start of the leftmost match of any of the patterns in [s]. *)
Definition first_leak (patterns : list str) (s : str) : option nat :=
  fold_left (fun found pattern => earlier found (re_search pattern s))
            patterns None.

(** The text cut at an optional position and trimmed. *)
Definition cut_at (s : str) (start : option nat) : str :=
  match start with
  | Some i => strip (take i s)
  | None => s
  end.

(** A keyword whose last character is no space under any letter case and
    none of whose characters is a line feed. *)
Definition plain_keyword (kw : str) : bool :=
  match rev kw with
  | [] => false
  | k :: _ => negb (isspace (lower_char k))
  end
  && forallb (fun k => negb (Ascii.eqb (lower_char k) LF)) kw.

(** In the words of the specification: the text of a fragment with its
    internal whitespace collapsed to single spaces. *)
Definition collapsed (text : str) : str := join (lit " ") (split text).

(** In the words of the specification: the surviving fragments, each
    behind the leading marker, joined with a blank line. *)
Definition assembled (kept : list Document) : str :=
  join [LF; LF] (map (fun doc => lit "- " ++ collapsed (page_content doc)) kept).

(** In the words of the specification: the texts appear in [output] in
    the order of the list, one after the other. *)
Fixpoint appear_in_order (texts : list str) (output : str) : Prop :=
  match texts with
  | [] => True
  | text :: rest =>
      exists before after,
        output = before ++ text ++ after /\ appear_in_order rest after
  end.

(** A fragment longer than the context limit. *)
Definition long_fragment : Document := Doc (repeat "a"%char (13 * 1000)).

(** ** The chat loop of [main] ([main.py]) *)

(** What the loop prints for one line of input. *)
Inductive printed :=
| Answer (response : str)       (* print("\nAnswer:", response) *)
| Error (text : str).           (* print(f"Error: {e}") *)

(** What one call of [input] gives: the line typed, or a
    [KeyboardInterrupt] for a Ctrl-C at the prompt. *)
Inductive typed :=
| Line (user_query : str)
| CtrlC.

(** How the loop stands once the standard input has been read.  At the
    end of the input [input] raises [EOFError], an [Exception]: the
    handler prints it and the loop reads again, for ever. *)
Inductive loop_end :=
| Goodbye                 (* left by [break], on "exit" or "quit" or on a
                             [KeyboardInterrupt]: the goodbye is printed
                             and [main] returns *)
| LeftBy (e : pyexc)      (* an exception that neither clause holds goes
                             on to the caller of [main] *)
| Hangs                   (* [ask_question] has not come back *)
| EndOfInput.             (* keeps printing the [EOFError] *)

(** [user_query.lower() in ['exit', 'quit']] *)
Definition is_exit (user_query : str) : bool :=
  bool_decide (lower user_query ∈ [lit "exit"; lit "quit"]).

(** The [while True] loop on what the calls of [input] give, with the
    chain [main] has built. *)
Fixpoint main_loop (w : world) (qa_chain : chain) (events : list typed)
  : list printed * loop_end * world :=
  match events with
  | [] => ([], EndOfInput, w)
  | CtrlC :: _ => ([], Goodbye, w)
  | Line user_query :: rest =>
      if is_exit user_query then ([], Goodbye, w)
      else if bool_decide (strip user_query = [])
      then main_loop w qa_chain rest
      else
        match ask_question w (Some qa_chain) (PyStr user_query)
                           DEFAULT_TIMEOUT with
        | (Returned response _, w') =>
            let '(out, ending, final) := main_loop w' qa_chain rest in
            (Answer response :: out, ending, final)
        | (Raised e, w') =>
            match exc_kind e with
            | KeyboardInterrupt => ([], Goodbye, w')
            | BaseExceptionOnly => ([], LeftBy e, w')
            | _ =>
                let '(out, ending, final) := main_loop w' qa_chain rest in
                (Error (exc_str e) :: out, ending, final)
            end
        | (NeverReturns, w') => ([], Hangs, w')
        end
  end.


(** What makes the loop [break] at the prompt. *)
Definition stops (event : typed) : bool :=
  match event with
  | Line user_query => is_exit user_query
  | CtrlC => true
  end.

(** A chain whose call is interrupted from the keyboard. *)
Definition interrupted : chain :=
  Chain (fun _ => Finishes 5 (Raises (PyExc KeyboardInterrupt []))).

(** ** Model loading ([src/model_loader.py]) *)

(** The handles [OllamaLLM(model=...)] and [OllamaEmbeddings(model=...)],
    by the model name they were built for. *)
Record OllamaLLM := LLM { llm_model : str }.
Record OllamaEmbeddings := Embeddings { embeddings_model : str }.

(** One run of [subprocess.run(["ollama", "list"], ...)]. *)
Inductive ollama_list :=
| Listed (returncode : Z) (stdout : str)
| ListRaises.               (* no executable, the 5 s timeout, ... *)

(** What the Ollama service shows during one call of a loader, in the
    order the loader looks: the run of [is_ollama_running], the run of
    [check_ollama_model], the exception of the constructor if it raises
    one, the exception of the test call if it raises one. *)
Record ollama := Ollama {
  first_list : ollama_list;
  second_list : ollama_list;
  constructor_raises : option pyexc;
  test_raises : option pyexc
}.

(** The two module globals. *)
Record models := Models {
  _llm_instance : option OllamaLLM;
  _embedding_instance : option OllamaEmbeddings
}.

(** What a loader gives back: a value, [None] included, or an exception
    that no [except Exception] clause holds. *)
Inductive loaded (A : Type) :=
| Got (value : A)
| Propagated (e : pyexc).
Arguments Got {A} value.
Arguments Propagated {A} e.

Definition LLM_MODEL_NAME : str := lit "custom-llama3.2".
Definition EMBEDDING_MODEL_NAME : str := lit "custom-llama3.2".

Definition is_ollama_running (run : ollama_list) : bool :=
  match run with
  | Listed returncode _ => (returncode =? 0)%Z
  | ListRaises => false
  end.

(** [model_name.split(':')[0] in result.stdout] *)
Definition check_ollama_model (run : ollama_list) (model_name : str) : bool :=
  match run with
  | Listed _ stdout => contains (hd [] (split_on ":" model_name)) stdout
  | ListRaises => false
  end.

(** The [except Exception] clause of the loaders: [None] for an
    [Exception]. *)
Definition caught {A} (e : pyexc) : loaded (option A) :=
  if is_Exception e then Got None else Propagated e.

Definition load_llm (m : models) (env : ollama) (model_name : str)
  : loaded (option OllamaLLM) * models :=
  match _llm_instance m with
  | Some instance => (Got (Some instance), m)
  | None =>
      if negb (is_ollama_running (first_list env)) then (Got None, m)
      else if negb (check_ollama_model (second_list env) model_name)
      then (Got None, m)
      else
        match constructor_raises env with
        | Some e => (caught e, m)
        | None =>
            let instance := LLM model_name in
            let m := Models (Some instance) (_embedding_instance m) in
            match test_raises env with
            | Some e => (caught e, m)
            | None => (Got (Some instance), m)
            end
        end
  end.

Definition get_embedding_model (m : models) (env : ollama)
  : loaded (option OllamaEmbeddings) * models :=
  match _embedding_instance m with
  | Some instance => (Got (Some instance), m)
  | None =>
      match constructor_raises env with
      | Some e => (caught e, m)
      | None =>
          let instance := Embeddings EMBEDDING_MODEL_NAME in
          let m := Models (_llm_instance m) (Some instance) in
          match test_raises env with
          | Some e => (caught e, m)
          | None => (Got (Some instance), m)
          end
      end
  end.

(** [preload_models]: [env_llm] is what Ollama shows during [load_llm()],
    [env_embeddings] during [get_embedding_model()]. *)
Definition preload_models (m : models) (env_llm env_embeddings : ollama)
  : loaded bool * models :=
  match load_llm m env_llm LLM_MODEL_NAME with
  | (Propagated e, m) => (Propagated e, m)
  | (Got llm, m) =>
      match get_embedding_model m env_embeddings with
      | (Propagated e, m) => (Propagated e, m)
      | (Got embeddings, m) =>
          (Got (bool_decide (llm <> None) && bool_decide (embeddings <> None)),
           m)
      end
  end.

Definition cleanup_models (m : models) : models := Models None None.

(** An Ollama service that is up, lists the configured model and answers
    the test call; one that is down; one that is up and whose test call
    fails. *)
Definition ollama_up : ollama :=
  let run := Listed 0 (lit "NAME" ++ LF :: lit "custom-llama3.2:latest") in
  Ollama run run None None.

Definition ollama_down : ollama := Ollama ListRaises ListRaises None None.

Definition ollama_test_fails : ollama :=
  Ollama (first_list ollama_up) (second_list ollama_up) None
         (Some (PyExc OtherException (lit "connection refused"))).

(** ** Indexing ([src/vector_store.py]) *)

(** A FAISS store, by the documents it holds in the order of their
    vectors: [FAISS.from_documents(batch)] holds the batch,
    [store.merge_from(other)] appends the documents of [other]. *)
Definition FAISS := list Document.

(** [range(start, stop, step)] for a positive step. *)
Definition range (start stop step : nat) : list nat :=
  map (fun j => start + j * step) (seq 0 ((stop - start + (step - 1)) / step)).

(** [FAISS.from_documents(batch, ...)]: [embeds doc] tells whether Ollama
    embeds the document; the call raises when it does not. *)
Definition from_documents (embeds : Document -> bool) (batch : list Document)
  : option FAISS :=
  if forallb embeds batch then Some batch else None.

Definition batch_size : nat := 50.

(** A progress callback, by what the call [progress_callback(current,
    total)] does: [None] when it returns, the exception when it raises
    one. *)
Definition callback := nat -> nat -> option pyexc.

(** The loop [for i in range(0, len(text_chunks), batch_size)] from the
    indices [starts] on; [vector_store] is [None] while the variable is
    unbound, [calls] are the calls of [progress_callback] so far.  The
    loop gives the store, or [None] when an [Exception] has left it for
    the handler of [create_vector_store], or the exception that no
    handler holds. *)
Fixpoint batch_loop (embeds : Document -> bool) (progress_callback : callback)
    (text_chunks : list Document) (starts : list nat)
    (vector_store : option FAISS) (calls : list (nat * nat))
  : loaded (option FAISS) * list (nat * nat) :=
  match starts with
  | [] => (Got vector_store, calls)
  | i :: rest =>
      let batch := take batch_size (drop i text_chunks) in
      match from_documents embeds batch with
      | None => (Got None, calls)
      | Some batch_store =>
          let merged :=
            if i =? 0 then Some batch_store
            else match vector_store with
                 | Some store => Some (store ++ batch_store)
                 | None => None
                 end in
          match merged with
          | None => (Got None, calls)
          | Some store =>
              let current := min (i + batch_size) (length text_chunks) in
              let calls := calls ++ [(current, length text_chunks)] in
              match progress_callback current (length text_chunks) with
              | Some e => (caught e, calls)
              | None =>
                  batch_loop embeds progress_callback text_chunks rest
                             (Some store) calls
              end
          end
      end
  end.

(** The branch for small lists, or without a callback. *)
Definition single_pass (embeds : Document -> bool)
    (progress_callback : option callback) (text_chunks : list Document)
  : loaded (option FAISS) * list (nat * nat) :=
  let n := length text_chunks in
  match from_documents embeds text_chunks with
  | None => (Got None, [])
  | Some store =>
      match progress_callback with
      | Some progress_callback =>
          match progress_callback n n with
          | Some e => (caught e, [(n, n)])
          | None => (Got (Some store), [(n, n)])
          end
      | None => (Got (Some store), [])
      end
  end.

(** [create_vector_store]; [USE_IVF_INDEX] is [False], so the index is
    never rebuilt.  [saves] tells whether the directory can be made and
    the store written; [progress_callback] is [None] when no callback is
    given.  The result comes with the calls of the callback. *)
Definition create_vector_store (m : models) (env : ollama)
    (embeds : Document -> bool) (saves : bool)
    (text_chunks : list Document) (progress_callback : option callback)
  : loaded (option FAISS) * list (nat * nat) * models :=
  match text_chunks with
  | [] => (Got None, [], m)
  | _ =>
      match get_embedding_model m env with
      | (Propagated e, m) => (Propagated e, [], m)
      | (Got None, m) => (Got None, [], m)
      | (Got (Some embeddings), m) =>
          let n := length text_chunks in
          let '(vector_store, calls) :=
            match progress_callback with
            | Some callback =>
                if 100 <? n
                then batch_loop embeds callback text_chunks
                                (range 0 n batch_size) None []
                else single_pass embeds progress_callback text_chunks
            | None => single_pass embeds progress_callback text_chunks
            end in
          match vector_store with
          | Propagated e => (Propagated e, calls, m)
          | Got None => (Got None, calls, m)
          | Got (Some store) =>
              if saves then (Got (Some store), calls, m)
              else (Got None, calls, m)
          end
      end
  end.

(** 120 chunks, told apart by their length. *)
Definition many_chunks : list Document :=
  map (fun n => Doc (repeat "a"%char n)) (seq 0 120).

(** A callback that returns from every call, and one that raises on
    every call. *)
Definition quiet : callback := fun _ _ => None.

Definition failing_callback : callback :=
  fun _ _ => Some (PyExc OtherException (lit "window closed")).

(** ** The client ([bot_client.py]) *)

(** The server address kept by [TCPClientGUI.__init__] from what the
    dialog returned ([None] when it was cancelled): [None] stands for the
    error box "Server IP is required!" and the closed window. *)
Definition server_ip (entered : option str) : option str :=
  let server_ip :=
    match entered with
    | Some s =>
        if negb (bool_decide (s = [])) && bool_decide (":"%char ∈ s)
        then Some (hd [] (split_on ":" s))
        else Some s
    | None => None
    end in
  match server_ip with
  | Some s => if bool_decide (s = []) then None else Some s
  | None => None
  end.

(** ** Finding and loading documents ([main.py],
       [src/document_processor.py]) *)

(** [s.endswith(suffix)] *)
Definition endswith (suffix s : str) : bool :=
  bool_decide (drop (length s - length suffix) s = suffix).

(** [os.path.join(a, b)], as [posixpath] has it. *)
Definition path_join (a b : str) : str :=
  if startswith (lit "/") b then b
  else if bool_decide (a = []) || endswith (lit "/") a then a ++ b
  else a ++ lit "/" ++ b.

(** [p.rfind(c)]: the last index of [c]; [None] for Python's [-1]. *)
Fixpoint rfind (c : ascii) (p : str) : option nat :=
  match p with
  | [] => None
  | x :: p' =>
      match rfind c p' with
      | Some i => Some (S i)
      | None => if Ascii.eqb x c then Some 0 else None
      end
  end.

(** The loop of [genericpath._splitext] over the file name up to its last
    dot: whether all of it is dots. *)
Fixpoint only_dots (name : str) : bool :=
  match name with
  | [] => true
  | c :: rest => if Ascii.eqb c "." then only_dots rest else false
  end.

(** [os.path.splitext(p)], as [posixpath] has it: the extension starts at
    the last dot, if that dot comes after the last slash and after a
    character of the file name that is no dot. *)
Definition splitext (p : str) : str * str :=
  let sepIndex := rfind "/" p in
  let dotIndex := rfind "." p in
  match dotIndex with
  | None => (p, [])
  | Some dot =>
      let filenameIndex :=
        match sepIndex with Some sep => S sep | None => 0 end in
      if filenameIndex <=? dot
      then if only_dots (take (dot - filenameIndex) (drop filenameIndex p))
           then (p, [])
           else (take dot p, drop dot p)
      else (p, [])
  end.

Definition supported_extensions : list str :=
  [lit ".pdf"; lit ".docx"; lit ".txt"].

(** [f.lower().endswith(supported_extensions)] *)
Definition supported (f : str) : bool :=
  existsb (fun extension => endswith extension (lower f)) supported_extensions.

(** The loop [for f in os.listdir(doc_dir)]. *)
Fixpoint collect (doc_dir : str) (names : list str) (files : list str)
  : list str :=
  match names with
  | [] => files
  | f :: rest =>
      if supported f then collect doc_dir rest (files ++ [path_join doc_dir f])
      else collect doc_dir rest files
  end.

(** [get_all_documents]: [listing] is what [os.listdir(doc_dir)] gives,
    [None] for a directory that does not exist; the result comes with the
    listing the call leaves. *)
Definition get_all_documents (listing : option (list str)) (doc_dir : str)
  : list str * option (list str) :=
  match listing with
  | None => ([], Some [])
  | Some names => (collect doc_dir names [], listing)
  end.

(** The loaders [load_document] chooses from. *)
Inductive loader :=
| PyPDFLoader
| Docx2txtLoader
| UnstructuredFileLoader_single     (* UnstructuredFileLoader(mode="single") *)
| UnstructuredFileLoader.

(** The chain [if ext == ".pdf": ... elif ... else] of [load_document]. *)
Definition loader_of (ext : str) : loader :=
  if bool_decide (ext = lit ".pdf") then PyPDFLoader
  else if bool_decide (ext = lit ".docx") then Docx2txtLoader
  else if bool_decide (ext = lit ".txt") then UnstructuredFileLoader_single
  else UnstructuredFileLoader.

(** The loader [load_document] builds for a path. *)
Definition loader_for (file_path : str) : loader :=
  let ext := (splitext file_path).2 in
  let ext := lower ext in
  loader_of ext.

(** [load_document]: [file_exists] is [os.path.exists], [load] what
    [loader.load()] gives for a loader and a path, [None] when it
    raises. *)
Definition load_document (file_exists : str -> bool)
    (load : loader -> str -> option (list Document)) (file_path : str)
  : list Document :=
  if negb (file_exists file_path) then []
  else match load (loader_for file_path) file_path with
       | Some documents => documents
       | None => []
       end.

(** [load_documents_batch] *)
Definition load_documents_batch (file_exists : str -> bool)
    (load : loader -> str -> option (list Document)) (file_paths : list str)
  : list Document :=
  fold_left (fun all_docs path =>
               all_docs ++ load_document file_exists load path)
            file_paths [].

(** * Properties *)

(** ** The text primitives and the digest on known values *)

Example strip_example : strip (lit "  What is X?  ") = lit "What is X?".
Proof. reflexivity. Qed.

Example split_example :
  split (lit " a  bc d ") = [lit "a"; lit "bc"; lit "d"]
  /\ split_on "." (lit "a.b.") = [lit "a"; lit "b"; lit ""].
Proof. split; reflexivity. Qed.

Example md5_empty :
  MD5.hexdigest (encode (lit "")) = lit "d41d8cd98f00b204e9800998ecf8427e".
Proof. vm_compute. reflexivity. Qed.

Example md5_abc :
  MD5.hexdigest (encode (lit "abc")) = lit "900150983cd24fb0d6963f7d28e17f72".
Proof. vm_compute. reflexivity. Qed.

Example md5_question :
  MD5.hexdigest (encode (lit "what is x?"))
  = lit "61f8016f697c0317dc5e3bb1205d3e8f".
Proof. vm_compute. reflexivity. Qed.

Example md5_two_blocks :
  MD5.hexdigest (encode (repeat "a"%char 64))
  = lit "014842d480b571495a4a0363793f7367".
Proof. vm_compute. reflexivity. Qed.

(** U+00E9 is encoded on two bytes before hashing. *)
Example md5_latin1 :
  MD5.hexdigest (encode [ascii_of_nat 233])
  = lit "66ddcd97cfdeabb2f6fb8a999b4bc76f".
Proof. vm_compute. reflexivity. Qed.

Example clean_example :
  _clean_response (lit "Paris." ++ [LF; LF] ++ lit "question: and then?")
  = lit "Paris.".
Proof. vm_compute. reflexivity. Qed.

Example validate_example :
  _validate_context_response (lit "Well, As an AI I think so.")
  = NO_INFORMATION.
Proof. vm_compute. reflexivity. Qed.

(** ** Substring test *)

Lemma startswith_spec (sub s : str) :
  startswith sub s = true <-> exists rest, s = sub ++ rest.
Proof.
  revert s. induction sub as [|a sub IH]; intros s; simpl.
  - split; [intros _; by exists s | done].
  - destruct s as [|b s].
    + split; [done | intros [rest H]; discriminate].
    + destruct (Ascii.eqb_spec a b) as [-> | Hne].
      * rewrite IH. split.
        -- intros [rest ->]. by exists rest.
        -- intros [rest H]. injection H as ->. by exists rest.
      * split; [done |]. intros [rest H]. injection H as -> _. done.
Qed.

Lemma contains_spec (sub s : str) :
  contains sub s = true <-> occurs_in sub s.
Proof.
  unfold occurs_in. induction s as [|c s IH]; simpl.
  - destruct (startswith sub []) eqn:E.
    + apply startswith_spec in E as [rest H]. split; [| done].
      intros _. by exists [], rest.
    + split; [done |]. intros [[|b before] [after H]]; [| discriminate].
      assert (startswith sub [] = true) as E'; [| congruence].
      apply startswith_spec. by exists after.
  - destruct (startswith sub (c :: s)) eqn:E.
    + apply startswith_spec in E as [rest H]. split; [| done].
      intros _. by exists [], rest.
    + rewrite IH. split.
      * intros [before [after H]]. exists (c :: before), after. by rewrite H.
      * intros [[|b before] [after H]].
        -- assert (startswith sub (c :: s) = true) as E'; [| congruence].
           apply startswith_spec. by exists after.
        -- injection H as _ ->. by exists before, after.
Qed.

Lemma not_contains_spec (sub s : str) :
  contains sub s = false <-> ~ occurs_in sub s.
Proof.
  rewrite <- contains_spec. destruct (contains sub s); split; try done.
Qed.

(** ** Provenance validation *)

Lemma validate_loop_hit (indicators : list str) (low response : str) :
  Exists (fun indicator => occurs_in indicator low) indicators ->
  validate_loop indicators low response = NO_INFORMATION.
Proof.
  induction indicators as [|i rest IH]; intros H; simpl.
  - by apply Exists_nil in H.
  - destruct (contains i low) eqn:E; [done |].
    apply Exists_cons in H as [H | H]; [| by apply IH].
    apply contains_spec in H. congruence.
Qed.

Lemma validate_loop_miss (indicators : list str) (low response : str) :
  Forall (fun indicator => ~ occurs_in indicator low) indicators ->
  validate_loop indicators low response = response.
Proof.
  induction 1 as [|i rest Hi _ IH]; simpl; [done |].
  apply not_contains_spec in Hi. by rewrite Hi.
Qed.

(** C6. A response whose lower-cased text contains a hedge phrase of the
    fixed list, "as an ai" among them, is replaced as a whole by the fixed
    sentinel, whatever else it contains; a response containing none of the
    phrases is returned unchanged. *)
Theorem validate_context_response_policy (response : str) :
  (occurs_in (lit "as an ai") (lower response) ->
   _validate_context_response response = NO_INFORMATION)
  /\ (Exists (fun indicator => occurs_in indicator (lower response))
             generic_indicators ->
      _validate_context_response response = NO_INFORMATION)
  /\ (Forall (fun indicator => ~ occurs_in indicator (lower response))
             generic_indicators ->
      _validate_context_response response = response).
Proof.
  unfold _validate_context_response. split; [| split].
  - intros H. apply validate_loop_hit. by apply Exists_cons_hd.
  - apply validate_loop_hit.
  - apply validate_loop_miss.
Qed.

Lemma validate_context_response_policy_witness :
  _validate_context_response (lit "Paris. But AS AN AI, who knows?")
  = NO_INFORMATION
  /\ _validate_context_response (lit "Typically, it rains.") = NO_INFORMATION
  /\ _validate_context_response (lit "Paris.") = lit "Paris.".
Proof.
  split; [| split].
  - destruct (validate_context_response_policy
                (lit "Paris. But AS AN AI, who knows?")) as (H & _ & _).
    apply H. apply contains_spec. vm_compute. reflexivity.
  - destruct (validate_context_response_policy (lit "Typically, it rains."))
      as (_ & H & _).
    apply H. do 4 apply Exists_cons_tl. apply Exists_cons_hd.
    apply contains_spec. vm_compute. reflexivity.
  - destruct (validate_context_response_policy (lit "Paris.")) as (_ & _ & H).
    apply H.
    repeat (apply Forall_cons; split;
            [apply not_contains_spec; vm_compute; reflexivity |]).
    apply Forall_nil. done.
Defined.

(** ** The query cache *)

Section Cache.

Import OrderedDict.

Lemma set_length (k v : str) (d : t) :
  length (set k v d) <= S (length d).
Proof.
  induction d as [|[k' v'] d IH]; simpl; [lia |].
  destruct (decide (k = k')); simpl; lia.
Qed.

Lemma cache_store_length (k v : str) (d : t) :
  length d <= CACHE_SIZE -> length (cache_store k v d) <= CACHE_SIZE.
Proof.
  intros Hd. unfold cache_store, popitem_first.
  pose proof (set_length k v d) as Hs.
  destruct (CACHE_SIZE <? length (set k v d)) eqn:E.
  - destruct (set k v d); simpl in *; lia.
  - apply Nat.ltb_ge in E. lia.
Qed.

Lemma set_Forall (P : str * str -> Prop) (k v : str) (d : t) :
  P (k, v) -> Forall P d -> Forall P (set k v d).
Proof.
  intros Hkv. induction 1 as [|[k' v'] d Hx Hd IH]; simpl.
  - by apply Forall_cons.
  - destruct (decide (k = k')); by apply Forall_cons.
Qed.

Lemma cache_store_Forall (P : str * str -> Prop) (k v : str) (d : t) :
  P (k, v) -> Forall P d -> Forall P (cache_store k v d).
Proof.
  intros Hkv Hd. unfold cache_store, popitem_first.
  pose proof (set_Forall P k v d Hkv Hd) as Hs.
  destruct (CACHE_SIZE <? length (set k v d)); [| done].
  destruct (set k v d); [done |]. by apply Forall_cons in Hs as [_ Hs].
Qed.

Lemma get_Forall (P : str * str -> Prop) (k v : str) (d : t) :
  Forall P d -> get k d = Some v -> P (k, v).
Proof.
  induction 1 as [|[k' v'] d Hx Hd IH]; simpl; [done |].
  destruct (decide (k = k')) as [-> |]; [| done].
  intros [= ->]. done.
Qed.

End Cache.

(** Every property of the stored entries that the sanitised, non-empty
    results have is kept by [ask_question]; the size bound as well. *)
Lemma ask_question_cache (P : str * str -> Prop) (w : world)
    (ch : option chain) (query : pyval) (timeout : N) :
  (forall key raw, sanitize raw <> [] -> P (key, sanitize raw)) ->
  Forall P (_query_cache w) /\ length (_query_cache w) <= CACHE_SIZE ->
  let w' := (ask_question w ch query timeout).2 in
  Forall P (_query_cache w') /\ length (_query_cache w') <= CACHE_SIZE.
Proof.
  intros HP [Hall Hlen]. unfold ask_question.
  destruct ch as [ch|]; [| done].
  destruct (negb (truthy query)); [done |].
  destruct query as [| | |q| |]; try done.
  destruct (bool_decide (strip q = [])); [done |].
  simpl. destruct (OrderedDict.get _ _); [done |].
  unfold generate. destruct (invoke ch q) as [after o|]; [| done].
  destruct (timeout <? after)%N; [done |].
  destruct o as [text|e]; [| by destruct (exc_kind e)].
  simpl. destruct (bool_decide (sanitize text = [])) eqn:E; [done |].
  apply bool_decide_eq_false in E. simpl. split.
  - apply cache_store_Forall; [by apply HP | done].
  - by apply cache_store_length.
Qed.

Lemma run_cache (P : str * str -> Prop) (ops : list operation) (w : world) :
  (forall key raw, sanitize raw <> [] -> P (key, sanitize raw)) ->
  Forall P (_query_cache w) /\ length (_query_cache w) <= CACHE_SIZE ->
  Forall P (_query_cache (run ops w))
  /\ length (_query_cache (run ops w)) <= CACHE_SIZE.
Proof.
  intros HP. revert w. unfold run.
  induction ops as [|op ops IH]; intros w Hw; simpl; [done |].
  apply IH. destruct op as [ch query timeout|]; simpl.
  - by apply ask_question_cache.
  - split; [apply Forall_nil; done | lia].
Qed.

(** C8. Whatever calls of [ask_question] and cache clears have run, in
    whatever order and at whatever point one stops, the query cache holds at
    most [CACHE_SIZE] = 100 entries. *)
Theorem cache_size_invariant (ops : list operation) (n : nat) :
  length (_query_cache (run (take n ops) initial_world)) <= CACHE_SIZE
  /\ CACHE_SIZE = 100.
Proof.
  split; [| done].
  apply (run_cache (fun _ => True)); [done |].
  split; [apply Forall_nil; done | simpl; lia].
Qed.

(** C9. Every value in the query cache is a non-empty string that left the
    three sanitisation stages, applied in the order leak stripping,
    repetition detection, provenance validation; so a cache hit returns
    such a value, at once and without calling the chain. *)
Theorem cache_holds_sanitized_answers (ops : list operation) :
  let w := run ops initial_world in
  Forall (fun entry => sanitized entry.2) (_query_cache w)
  /\ forall (ch : chain) (query : str) (timeout : N) (value : str),
       strip query <> [] ->
       OrderedDict.get (query_hash query) (_query_cache w) = Some value ->
       ask_question w (Some ch) (PyStr query) timeout = (Returned value 0, w)
       /\ sanitized value.
Proof.
  intros w.
  assert (Forall (fun entry => sanitized entry.2) (_query_cache w)) as Hall.
  { apply (run_cache (fun entry => sanitized entry.2)).
    - intros key raw Hne. split; [done | by exists raw].
    - split; [apply Forall_nil; done | simpl; lia]. }
  split; [done |].
  intros ch query timeout value Hq Hget. split.
  - unfold ask_question.
    assert (truthy (PyStr query) = true) as ->.
    { destruct query; [done | reflexivity]. }
    simpl. rewrite bool_decide_eq_false_2 by done. by rewrite Hget.
  - apply (get_Forall (fun entry => sanitized entry.2) _ _ _ Hall Hget).
Qed.

Lemma cache_holds_sanitized_answers_witness :
  let w := run [Ask (Some (answering (lit "Paris.") 10))
                    (PyStr (lit "What is X?")) 1000] initial_world in
  ask_question w (Some echo) (PyStr (lit "  what is x?  ")) 1000
  = (Returned (lit "Paris.") 0, w)
  /\ sanitized (lit "Paris.").
Proof.
  intros w.
  destruct (cache_holds_sanitized_answers
              [Ask (Some (answering (lit "Paris.") 10))
                   (PyStr (lit "What is X?")) 1000]) as [_ H].
  apply H; vm_compute; [discriminate | reflexivity].
Defined.

(** ** The timeout path *)

Lemma ask_question_miss (w : world) (ch : chain) (query : str) (timeout : N) :
  strip query <> [] ->
  OrderedDict.get (query_hash query) (_query_cache w) = None ->
  ask_question w (Some ch) (PyStr query) timeout = generate w ch query timeout.
Proof.
  intros Hq Hget. unfold ask_question.
  assert (truthy (PyStr query) = true) as ->.
  { destruct query; [done | reflexivity]. }
  simpl. rewrite bool_decide_eq_false_2 by done. by rewrite Hget.
Qed.

Lemma generate_late (w : world) (ch : chain) (query : str)
    (timeout after : N) (o : outcome) :
  invoke ch query = Finishes after o -> (timeout < after)%N ->
  generate w ch query timeout
  = (Returned NO_INFORMATION after,
     World (_query_cache w) (chain_calls w ++ [query])).
Proof.
  intros Hinv Hlate. unfold generate. rewrite Hinv.
  apply N.ltb_lt in Hlate. by rewrite Hlate.
Qed.

(** C10. When the generation of a question times out, [ask_question]
    returns the sentinel and writes nothing: the cache is the one it found
    and still has no entry under the question's fingerprint.  The next call
    with the same question therefore calls the chain again, and a chain that
    answers in time has its own, sanitised, answer returned. *)
Theorem timeout_leaves_cache_unchanged (w : world) (ch : chain) (query : str)
    (timeout after : N) (o : outcome) :
  strip query <> [] ->
  OrderedDict.get (query_hash query) (_query_cache w) = None ->
  invoke ch query = Finishes after o ->
  (timeout < after)%N ->
  let first := ask_question w (Some ch) (PyStr query) timeout in
  first.1 = Returned NO_INFORMATION after
  /\ _query_cache first.2 = _query_cache w
  /\ OrderedDict.get (query_hash query) (_query_cache first.2) = None
  /\ forall (ch' : chain) (timeout' : N),
       let second := ask_question first.2 (Some ch') (PyStr query) timeout' in
       chain_calls second.2 = chain_calls w ++ [query; query]
       /\ forall (text : str) (after' : N),
            invoke ch' query = Finishes after' (Returns text) ->
            (after' <= timeout')%N ->
            second.1 = Returned (sanitize text) after'.
Proof.
  intros Hq Hget Hinv Hlate first. subst first.
  rewrite (ask_question_miss _ _ _ _ Hq Hget),
          (generate_late _ _ _ _ _ _ Hinv Hlate).
  cbn [fst snd _query_cache chain_calls].
  split; [done |]. split; [done |]. split; [done |].
  intros ch' timeout'.
  rewrite ask_question_miss by done. unfold generate.
  cbn [_query_cache chain_calls]. rewrite <- app_assoc.
  destruct (invoke ch' query) as [after' o'|] eqn:Hinv'; [| by split].
  split.
  - destruct (timeout' <? after')%N; [done |].
    destruct o' as [text|e]; [done | by destruct (exc_kind e)].
  - intros text ? [= -> ->] Hin.
    apply N.ltb_ge in Hin. by rewrite Hin.
Qed.

Lemma timeout_leaves_cache_unchanged_witness :
  let first := ask_question initial_world (Some (answering (lit "Paris.") 200))
                            (PyStr (lit "Where?")) 50 in
  first.1 = Returned NO_INFORMATION 200
  /\ _query_cache first.2 = []
  /\ OrderedDict.get (query_hash (lit "Where?")) (_query_cache first.2) = None
  /\ forall (ch' : chain) (timeout' : N),
       let second := ask_question first.2 (Some ch') (PyStr (lit "Where?"))
                                  timeout' in
       chain_calls second.2 = [lit "Where?"; lit "Where?"]
       /\ forall (text : str) (after' : N),
            invoke ch' (lit "Where?") = Finishes after' (Returns text) ->
            (after' <= timeout')%N ->
            second.1 = Returned (sanitize text) after'.
Proof.
  apply (timeout_leaves_cache_unchanged initial_world
           (answering (lit "Paris.") 200) (lit "Where?") 50 200
           (Returns (lit "Paris."))).
  - vm_compute. discriminate.
  - reflexivity.
  - reflexivity.
  - lia.
Defined.


(** C4 fails on the code.  With the 50 ms timeout and the 200 ms generator
    of the specification's own test, [ask_question] gives control back
    after 200 ms: the [return] sits inside the [with] block of the executor,
    whose exit waits for the submitted call. *)
Theorem timed_out_call_waits_for_generator :
  ask_question initial_world (Some (answering (lit "Paris.") 200))
               (PyStr (lit "Where?")) 50
  = (Returned NO_INFORMATION 200, World [] [lit "Where?"]).
Proof. vm_compute. reflexivity. Qed.

(** The same for every late generator; one that never finishes keeps
    [ask_question] from returning at all. *)
Lemma timed_out_call_elapsed (w : world) (ch : chain) (query : str)
    (timeout after : N) (o : outcome) :
  invoke ch query = Finishes after o -> (timeout < after)%N ->
  exists value w', generate w ch query timeout = (Returned value after, w')
                   /\ (timeout < after)%N.
Proof.
  intros Hinv Hlate. eexists _, _.
  split; [by apply (generate_late _ _ _ _ _ o) | done].
Qed.




(** ** Failures of the chain *)

(** C2, as the specification has it, fails: a request whose question is
    the JSON number 5 makes [ask_question] raise before its [try], and the
    handler writes the text of that exception into the response. *)
Lemma exception_text_in_response :
  handle_client initial_world (Some echo) true (JsonObject (Some (PyInt 5)))
  = (Sent (Response (lit "error")
             (lit "Internal Error: 'int' object has no attribute 'strip'")
             None),
     initial_world).
Proof. vm_compute. reflexivity. Qed.

(** C2, as the code has it.  A string question that is not blank and
    misses the cache, so that the chain is called, and a chain that raises
    an exception derived from [Exception].  The exception is caught inside
    [ask_question] and the caller gets a fixed message: the sentinel when
    the exception arrives after the timeout or is a timeout of
    [concurrent.futures], the generic error message otherwise.  The handler
    sends that message with the status of a success.  The text of an
    exception does reach a response when [ask_question] itself raises, as
    it does for every question that is not empty and is no string. *)
Theorem chain_failure_answered_with_fixed_message (w : world) (ch : chain)
    (query : str) (after : N) (e : pyexc) :
  strip query <> [] ->
  OrderedDict.get (query_hash query) (_query_cache w) = None ->
  invoke ch query = Finishes after (Raises e) ->
  is_Exception e = true ->
  let fixed (timeout : N) : str :=
    if (timeout <? after)%N then NO_INFORMATION
    else match exc_kind e with
         | FuturesTimeoutError => NO_INFORMATION
         | _ => ERROR_MESSAGE
         end in
  (forall timeout : N,
     ask_question w (Some ch) (PyStr query) timeout
     = (Returned (fixed timeout) after,
        World (_query_cache w) (chain_calls w ++ [query])))
  /\ handle_client w (Some ch) true (JsonObject (Some (PyStr query)))
     = (Sent (Response (lit "success") (fixed DEFAULT_TIMEOUT) (Some after)),
        World (_query_cache w) (chain_calls w ++ [query]))
  /\ (forall question : pyval,
        truthy question = true ->
        (forall s, question <> PyStr s) ->
        handle_client w (Some ch) true (JsonObject (Some question))
        = (Sent (Response (lit "error")
                   (lit "Internal Error: "
                    ++ exc_str (AttributeError_strip question)) None), w)).
Proof.
  intros Hq Hget Hinv Hexc fixed.
  assert (forall timeout : N,
            ask_question w (Some ch) (PyStr query) timeout
            = (Returned (fixed timeout) after,
               World (_query_cache w) (chain_calls w ++ [query]))) as Hask.
  { intros timeout. rewrite (ask_question_miss _ _ _ _ Hq Hget).
    unfold generate, fixed. rewrite Hinv.
    destruct (timeout <? after)%N; [done |].
    unfold is_Exception in Hexc. by destruct (exc_kind e). }
  split; [done |]. split.
  - unfold handle_client, process.
    assert (truthy (PyStr query) = true) as ->.
    { destruct query; [done | reflexivity]. }
    cbn [negb]. by rewrite Hask.
  - intros question Htruthy Hnot. unfold handle_client, process.
    rewrite Htruthy. cbn [negb]. unfold ask_question. rewrite Htruthy.
    cbn [negb]. destruct question as [| | |s| |]; try done.
    by destruct (Hnot s).
Qed.

Lemma chain_failure_answered_with_fixed_message_witness :
  let failing :=
    Chain (fun _ => Finishes 10 (Raises (PyExc OtherException
                                           (lit "connection refused")))) in
  (ask_question initial_world (Some failing) (PyStr (lit "Where?")) 1000).1
  = Returned ERROR_MESSAGE 10
  /\ (ask_question initial_world (Some failing) (PyStr (lit "Where?")) 5).1
     = Returned NO_INFORMATION 10
  /\ (handle_client initial_world (Some failing) true
                    (JsonObject (Some (PyStr (lit "Where?"))))).1
     = Sent (Response (lit "success") ERROR_MESSAGE (Some 10%N))
  /\ handle_client initial_world (Some failing) true
                   (JsonObject (Some (PyList 2)))
     = (Sent (Response (lit "error")
                (lit "Internal Error: 'list' object has no attribute 'strip'")
                None), initial_world).
Proof.
  intros failing.
  destruct (chain_failure_answered_with_fixed_message initial_world failing
              (lit "Where?") 10
              (PyExc OtherException (lit "connection refused")))
    as (H1 & H2 & H3).
  - vm_compute. discriminate.
  - reflexivity.
  - reflexivity.
  - reflexivity.
  - split; [by rewrite (H1 1000%N) |]. split; [by rewrite (H1 5%N) |].
    split; [by rewrite H2 |].
    apply (H3 (PyList 2)); [reflexivity | discriminate].
Defined.

(** ** Eviction *)

Lemma set_present_keeps_keys (k v v0 : str) (d : OrderedDict.t) :
  OrderedDict.get k d = Some v0 ->
  OrderedDict.keys (OrderedDict.set k v d) = OrderedDict.keys d.
Proof.
  induction d as [|[k' v'] d IH]; simpl; [done |].
  destruct (decide (k = k')) as [-> |]; simpl; [done |].
  intros H. by rewrite IH.
Qed.

(** C1 fails on the code.  Fill the cache with [CACHE_SIZE] distinct
    questions, ask the first of them again (a hit, the chain is not called),
    then ask one more distinct question: the entry evicted is the one of the
    first question, the most recently accessed of all, and the entry of the
    second question, untouched since it was inserted, is still there.  A
    least-recently-used cache would have moved the first entry to the end on
    the hit. *)
Theorem eviction_is_by_insertion_order :
  let w := run eviction_scenario initial_world in
  length (_query_cache w) = CACHE_SIZE
  /\ length (chain_calls w) = CACHE_SIZE + 1
  /\ OrderedDict.get (query_hash (numbered_question 0)) (_query_cache w) = None
  /\ OrderedDict.get (query_hash (numbered_question 1)) (_query_cache w)
     = Some (lit "answer to question 1").
Proof. vm_compute. repeat split. Qed.

(** ** Context assembly *)

Section Dedup.

Implicit Types (docs acc : list Document) (seen : gset str).

Lemma dedup_loop_acc acc seen docs :
  dedup_loop acc seen docs = acc ++ dedup_loop [] seen docs.
Proof.
  revert acc seen. induction docs as [|doc rest IH]; intros acc seen; simpl.
  - by rewrite app_nil_r.
  - destruct (decide (fingerprint doc ∈ seen)); [apply IH |].
    rewrite (IH (acc ++ [doc])), (IH [doc]). by rewrite <- app_assoc.
Qed.

Lemma dedup_loop_cons seen doc rest :
  dedup_loop [] seen (doc :: rest)
  = if decide (fingerprint doc ∈ seen) then dedup_loop [] seen rest
    else doc :: dedup_loop [] ({[fingerprint doc]} ∪ seen) rest.
Proof.
  simpl. destruct (decide (fingerprint doc ∈ seen)); [done |].
  by rewrite dedup_loop_acc.
Qed.

Lemma dedup_loop_sublist seen docs :
  sublist (dedup_loop [] seen docs) docs.
Proof.
  revert seen. induction docs as [|doc rest IH]; intros seen.
  - simpl. constructor.
  - rewrite dedup_loop_cons. destruct (decide _).
    + apply sublist_cons, IH.
    + apply sublist_skip, IH.
Qed.

Lemma dedup_loop_fresh seen docs u :
  u ∈ dedup_loop [] seen docs -> fingerprint u ∉ seen.
Proof.
  revert seen. induction docs as [|doc rest IH]; intros seen.
  - simpl. by intros ?%elem_of_nil.
  - rewrite dedup_loop_cons. destruct (decide _) as [|Hnew].
    + apply IH.
    + intros [-> | Hin]%elem_of_cons; [done |].
      apply IH in Hin. set_solver.
Qed.

Lemma dedup_loop_NoDup seen docs :
  NoDup (map fingerprint (dedup_loop [] seen docs)).
Proof.
  revert seen. induction docs as [|doc rest IH]; intros seen.
  - simpl. constructor.
  - rewrite dedup_loop_cons. destruct (decide _); [apply IH |].
    simpl. constructor; [| apply IH].
    intros Hin. apply list_elem_of_fmap in Hin as (u & Hu & Hin).
    apply dedup_loop_fresh in Hin. set_solver.
Qed.

Lemma dedup_loop_covers seen docs doc :
  doc ∈ docs ->
  fingerprint doc ∈ seen
  \/ exists u, u ∈ dedup_loop [] seen docs /\ fingerprint u = fingerprint doc.
Proof.
  revert seen. induction docs as [|d rest IH]; intros seen.
  - by intros ?%elem_of_nil.
  - rewrite dedup_loop_cons.
    intros [-> | Hin]%elem_of_cons.
    + destruct (decide _); [by left |].
      right. exists d. split; [apply list_elem_of_here | done].
    + destruct (decide _) as [|Hnew]; [by apply IH |].
      destruct (IH ({[fingerprint d]} ∪ seen) Hin) as [Hs | (u & Hu & Hfp)].
      * apply elem_of_union in Hs as [Hs%elem_of_singleton | Hs]; [| by left].
        right. exists d. split; [apply list_elem_of_here | done].
      * right. exists u. split; [by apply list_elem_of_further | done].
Qed.

Lemma dedup_loop_drops seen before doc after :
  fingerprint doc ∈ seen
  \/ (exists earlier, earlier ∈ before /\ fingerprint earlier = fingerprint doc) ->
  dedup_loop [] seen (before ++ doc :: after)
  = dedup_loop [] seen (before ++ after).
Proof.
  revert seen. induction before as [|d before IH]; intros seen Hdup.
  - simpl app. rewrite dedup_loop_cons.
    destruct Hdup as [Hs | (earlier & Hin & _)]; [| by apply elem_of_nil in Hin].
    by rewrite decide_True.
  - simpl app. rewrite !dedup_loop_cons.
    destruct (decide (fingerprint d ∈ seen)) as [Hd | Hd].
    + apply IH. destruct Hdup as [Hs | (earlier & Hin & Hfp)]; [by left |].
      apply elem_of_cons in Hin as [-> | Hin].
      * left. by rewrite <- Hfp.
      * right. by exists earlier.
    + f_equal. apply IH.
      destruct Hdup as [Hs | (earlier & Hin & Hfp)]; [left; set_solver |].
      apply elem_of_cons in Hin as [-> | Hin].
      * left. rewrite <- Hfp. set_solver.
      * right. by exists earlier.
Qed.

End Dedup.

Lemma NoDup_map_through {A B C : Type} (f : A -> B) (g : B -> C) (l : list A) :
  NoDup (map (fun x => g (f x)) l) -> NoDup (map f l).
Proof.
  induction l as [|x l IH]; simpl; [constructor |].
  intros [Hx Hl]%NoDup_cons. constructor; [| by apply IH].
  intros Hin. apply Hx.
  apply list_elem_of_fmap in Hin as (y & Hy & Hin).
  apply list_elem_of_fmap. exists y. by rewrite Hy.
Qed.

Section Collapsing.

Implicit Types (s t : str) (c : ascii).

Lemma split_lstrip s : split (lstrip s) = split s.
Proof.
  induction s as [|c s IH]; [done |].
  simpl lstrip. destruct (isspace c) eqn:E; [| done].
  rewrite IH. simpl. by rewrite E.
Qed.

Lemma split_cons c s :
  split (c :: s)
  = if isspace c then split s
    else match s with
         | [] => [[c]]
         | c' :: _ =>
             if isspace c' then [c] :: split s
             else match split s with
                  | w :: ws => (c :: w) :: ws
                  | [] => [[c]]
                  end
         end.
Proof. reflexivity. Qed.

Lemma rstrip_cons c s :
  rstrip (c :: s)
  = match rstrip s with
    | [] => if isspace c then [] else [c]
    | r => c :: r
    end.
Proof. reflexivity. Qed.

Lemma rstrip_nil_head c s : rstrip (c :: s) = [] -> isspace c = true.
Proof.
  rewrite rstrip_cons. destruct (rstrip s); [| done].
  by destruct (isspace c).
Qed.

Lemma rstrip_head c s d r : rstrip (c :: s) = d :: r -> d = c.
Proof.
  rewrite rstrip_cons. destruct (rstrip s).
  - destruct (isspace c); [done |]. by intros [= <- _].
  - by intros [= <- _].
Qed.

Lemma split_rstrip s : split (rstrip s) = split s.
Proof.
  induction s as [|c s IH]; [done |].
  rewrite rstrip_cons. destruct (rstrip s) as [|d r] eqn:Hr.
  - simpl in IH. rewrite (split_cons c s), <- IH.
    destruct (isspace c) eqn:E; [done |].
    rewrite split_cons, E.
    destruct s as [|c' s']; [done |].
    by rewrite (rstrip_nil_head c' s' Hr).
  - rewrite (split_cons c s), (split_cons c (d :: r)), IH.
    destruct (isspace c); [done |].
    destruct s as [|c' s']; [done |].
    by rewrite (rstrip_head c' s' d r Hr).
Qed.

Lemma split_strip s : split (strip s) = split s.
Proof. unfold strip. by rewrite split_rstrip, split_lstrip. Qed.

Lemma format_doc_collapsed (doc : Document) :
  format_doc doc = lit "- " ++ collapsed (page_content doc).
Proof. unfold format_doc, collapsed. by rewrite split_strip. Qed.

Lemma join_format_docs (kept : list Document) :
  join [LF; LF] (map format_doc kept) = assembled kept.
Proof.
  unfold assembled. f_equal. apply map_ext. apply format_doc_collapsed.
Qed.

Lemma appear_in_order_behind (texts : list str) (front output : str) :
  appear_in_order texts output -> appear_in_order texts (front ++ output).
Proof.
  destruct texts as [|text rest]; [done |].
  intros (before & after & -> & Hrest).
  exists (front ++ before), after. by rewrite <- app_assoc.
Qed.

Lemma appear_in_order_assembled (kept : list Document) :
  appear_in_order (map (fun doc => collapsed (page_content doc)) kept)
                  (assembled kept).
Proof.
  unfold assembled. induction kept as [|doc kept IH]; [done |].
  simpl map. destruct kept as [|next kept].
  - exists (lit "- "), []. by rewrite app_nil_r.
  - exists (lit "- "),
           ([LF; LF]
              ++ join [LF; LF]
                   (map (fun doc => lit "- " ++ collapsed (page_content doc))
                        (next :: kept))).
    split; [simpl; by rewrite <- ?app_assoc |].
    by apply appear_in_order_behind.
Qed.

End Collapsing.

(** C7, as the code has it.  Context assembly drops a fragment whose
    first 200 characters are those of an earlier fragment: the fragments
    kept and the context are those of the list without it.  The fragments
    kept come in the order of the retrieval, no two of them share their
    first 200 characters, and every fragment has its fingerprint among
    them.  The kept fragments, each behind its marker and with its
    whitespace collapsed, a blank line between them, make a text in which
    they occur in that order; the context is that text when it has at most
    [MAX_CONTEXT_LENGTH] characters, and its first [MAX_CONTEXT_LENGTH]
    characters followed by the truncation mark when it is longer. *)
Theorem format_docs_deduplicates_in_order (docs : list Document) :
  (forall before doc after earlier,
     docs = before ++ doc :: after ->
     earlier ∈ before ->
     take 200 (page_content earlier) = take 200 (page_content doc) ->
     unique_docs docs = unique_docs (before ++ after)
     /\ _format_docs docs = _format_docs (before ++ after))
  /\ sublist (unique_docs docs) docs
  /\ NoDup (map (fun doc => take 200 (page_content doc)) (unique_docs docs))
  /\ (forall doc, doc ∈ docs ->
        exists kept, kept ∈ unique_docs docs
                     /\ fingerprint kept = fingerprint doc)
  /\ (docs <> [] ->
      let texts :=
        map (fun doc => collapsed (page_content doc)) (unique_docs docs) in
      let formatted := assembled (unique_docs docs) in
      appear_in_order texts formatted
      /\ (length formatted <= MAX_CONTEXT_LENGTH ->
          _format_docs docs = formatted
          /\ appear_in_order texts (_format_docs docs))
      /\ (MAX_CONTEXT_LENGTH < length formatted ->
          _format_docs docs
          = take MAX_CONTEXT_LENGTH formatted ++ TRUNCATION_MARK)).
Proof.
  split; [| split; [| split; [| split]]].
  - intros before doc after earlier -> Hin Hpre.
    assert (unique_docs (before ++ doc :: after)
            = unique_docs (before ++ after)) as Hsame.
    { apply dedup_loop_drops. right. exists earlier. split; [done |].
      unfold fingerprint. by rewrite Hpre. }
    split; [done |].
    destruct before as [|first before]; [by apply elem_of_nil in Hin |].
    unfold _format_docs. simpl app in *. by rewrite Hsame.
  - apply dedup_loop_sublist.
  - apply (NoDup_map_through _ strip), (dedup_loop_NoDup ∅).
  - intros doc Hin.
    destruct (dedup_loop_covers ∅ docs doc Hin) as [Hs | H]; [set_solver | done].
  - intros Hne texts formatted.
    pose proof (appear_in_order_assembled (unique_docs docs)) as Horder.
    split; [done |].
    destruct docs as [|d rest]; [done |].
    unfold _format_docs, truncate. rewrite join_format_docs. fold formatted.
    split.
    + intros Hfit. apply Nat.ltb_ge in Hfit. by rewrite Hfit.
    + intros Hlong. apply Nat.ltb_lt in Hlong. by rewrite Hlong.
Qed.

Lemma format_docs_deduplicates_in_order_witness :
  (unique_docs [fragment_one; fragment_two; fragment_three]
   = unique_docs [fragment_one; fragment_two]
   /\ _format_docs [fragment_one; fragment_two; fragment_three]
      = _format_docs [fragment_one; fragment_two])
  /\ _format_docs [fragment_one; fragment_two; fragment_three]
     = assembled [fragment_one; fragment_two]
  /\ appear_in_order [collapsed (page_content fragment_one);
                      collapsed (page_content fragment_two)]
                     (_format_docs [fragment_one; fragment_two; fragment_three])
  /\ _format_docs [long_fragment; fragment_two]
     = take MAX_CONTEXT_LENGTH (assembled [long_fragment; fragment_two])
       ++ TRUNCATION_MARK.
Proof.
  destruct (format_docs_deduplicates_in_order
              [fragment_one; fragment_two; fragment_three])
    as (Hdrop & _ & _ & _ & Hout).
  destruct (format_docs_deduplicates_in_order [long_fragment; fragment_two])
    as (_ & _ & _ & _ & Hlong).
  assert (unique_docs [fragment_one; fragment_two; fragment_three]
          = [fragment_one; fragment_two]) as Hkept
    by (vm_compute; reflexivity).
  assert (unique_docs [long_fragment; fragment_two]
          = [long_fragment; fragment_two]) as Hkept'
    by (vm_compute; reflexivity).
  split; [| split; [| split]].
  - apply (Hdrop [fragment_one; fragment_two] fragment_three [] fragment_one).
    + reflexivity.
    + apply list_elem_of_here.
    + reflexivity.
  - destruct Hout as (_ & Hfit & _); [discriminate |].
    rewrite Hkept in Hfit. apply Hfit.
    apply Nat.leb_le. vm_compute. reflexivity.
  - destruct Hout as (_ & Hfit & _); [discriminate |].
    rewrite Hkept in Hfit. apply Hfit.
    apply Nat.leb_le. vm_compute. reflexivity.
  - destruct Hlong as (_ & _ & Hcut); [discriminate |].
    rewrite Hkept' in Hcut. apply Hcut.
    apply Nat.ltb_lt. vm_compute. reflexivity.
Defined.

(** C7, as the specification has it, fails: the second of these two
    fragments survives the deduplication, and the context, cut at
    [MAX_CONTEXT_LENGTH] characters, holds nothing of it. *)
Lemma truncation_drops_a_surviving_fragment :
  unique_docs [long_fragment; fragment_two] = [long_fragment; fragment_two]
  /\ collapsed (page_content fragment_two) = lit "gamma delta"
  /\ ~ occurs_in (lit "gamma") (_format_docs [long_fragment; fragment_two])
  /\ ~ appear_in_order [collapsed (page_content long_fragment);
                        collapsed (page_content fragment_two)]
                       (_format_docs [long_fragment; fragment_two]).
Proof.
  assert (~ occurs_in (lit "gamma")
            (_format_docs [long_fragment; fragment_two])) as Habsent.
  { apply not_contains_spec. vm_compute. reflexivity. }
  split; [vm_compute; reflexivity |]. split; [reflexivity |].
  split; [done |].
  intros (before & after & Hout & before' & after' & -> & _).
  apply Habsent.
  exists (before ++ collapsed (page_content long_fragment) ++ before'),
         (lit " delta" ++ after').
  rewrite Hout. change (collapsed (page_content fragment_two))
    with (lit "gamma" ++ lit " delta").
  by rewrite <- !app_assoc.
Qed.

Example format_docs_example :
  _format_docs [fragment_two; fragment_two; Doc (lit " epsilon ")]
  = lit "- gamma delta" ++ [LF; LF] ++ lit "- epsilon".
Proof. vm_compute. reflexivity. Qed.

(** ** Leak stripping *)

Section Trimming.

Implicit Types (s t u : str) (c : ascii).

Lemma lstrip_fixed u :
  lstrip u = u -> u = [] \/ exists c u', u = c :: u' /\ isspace c = false.
Proof.
  destruct u as [|c u']; [by left |]. simpl.
  destruct (isspace c) eqn:E; [| right; by exists c, u'].
  intros H. exfalso.
  assert (forall v, length (lstrip v) <= length v) as Hlen.
  { induction v as [|d v IH]; simpl; [lia |].
    destruct (isspace d); simpl; lia. }
  pose proof (Hlen u') as Hu. rewrite H in Hu. simpl in Hu. lia.
Qed.

Lemma lstrip_idem u : lstrip (lstrip u) = lstrip u.
Proof.
  induction u as [|c u IH]; simpl; [done |].
  destruct (isspace c) eqn:E; [done |]. simpl. by rewrite E.
Qed.

Lemma rstrip_cons_nonspace c u :
  isspace c = false -> rstrip (c :: u) = c :: rstrip u.
Proof. intros E. simpl. rewrite E. by destruct (rstrip u). Qed.

Lemma rstrip_app_nonspace u c v :
  isspace c = false -> rstrip (u ++ c :: v) = u ++ c :: rstrip v.
Proof.
  intros E. induction u as [|d u IH]; simpl app.
  - by apply rstrip_cons_nonspace.
  - simpl. rewrite IH. by destruct u.
Qed.

Lemma rstrip_prefix u : exists spaces, u = rstrip u ++ spaces.
Proof.
  induction u as [|c u [spaces IH]]; simpl; [by exists [] |].
  destruct (rstrip u) as [|d r] eqn:E.
  - destruct (isspace c).
    + by exists (c :: u).
    + exists spaces. simpl. by rewrite IH at 1.
  - exists spaces. simpl. by rewrite IH at 1.
Qed.

Lemma rstrip_idem u : rstrip (rstrip u) = rstrip u.
Proof.
  induction u as [|c u IH]; simpl; [done |].
  destruct (rstrip u) as [|d r] eqn:E.
  - destruct (isspace c) eqn:Ec; simpl; [done |]. by rewrite Ec.
  - simpl in *. rewrite IH. done.
Qed.

Lemma lstrip_rstrip u : lstrip u = u -> lstrip (rstrip u) = rstrip u.
Proof.
  intros [-> | (c & u' & -> & E)]%lstrip_fixed; [done |].
  rewrite rstrip_cons_nonspace by done. simpl. by rewrite E.
Qed.

Lemma lstrip_take u n : lstrip u = u -> lstrip (take n u) = take n u.
Proof.
  intros [-> | (c & u' & -> & E)]%lstrip_fixed; [by rewrite take_nil |].
  destruct n; simpl; [done |]. by rewrite E.
Qed.

Lemma strip_left_fixed s : lstrip (strip s) = strip s.
Proof. apply lstrip_rstrip, lstrip_idem. Qed.

Lemma strip_idem s : strip (strip s) = strip s.
Proof.
  unfold strip at 1. rewrite strip_left_fixed. unfold strip.
  apply rstrip_idem.
Qed.

Lemma strip_take_prefix t n :
  lstrip t = t -> exists tail, t = strip (take n t) ++ tail.
Proof.
  intros Ht. unfold strip. rewrite lstrip_take by done.
  destruct (rstrip_prefix (take n t)) as [spaces Hs].
  exists (spaces ++ drop n t). rewrite app_assoc, <- Hs. by rewrite take_drop.
Qed.

Lemma strip_of_trimmed s : strip s = s -> lstrip s = s.
Proof. intros H. rewrite <- H. apply strip_left_fixed. Qed.

End Trimming.

Section Matching.

Implicit Types (kw s t u ws : str) (c : ascii).

Lemma isspace_lower_char c : isspace c = true -> lower_char c = c.
Proof.
  destruct c as [[] [] [] [] [] [] [] []]; vm_compute; congruence.
Qed.

Lemma keyword_at_split kw u :
  keyword_at kw u = true ->
  exists found rest, u = found ++ rest /\ lower found = lower kw.
Proof.
  revert u. induction kw as [|k kw IH]; intros u; simpl.
  - intros _. by exists [], u.
  - destruct u as [|c u]; [done |].
    destruct (Ascii.eqb_spec (lower_char c) (lower_char k)) as [E|]; [| done].
    intros (found & rest & -> & Hl)%IH.
    exists (c :: found), rest. simpl. by rewrite E, Hl.
Qed.

Lemma keyword_at_join kw found rest :
  lower found = lower kw -> keyword_at kw (found ++ rest) = true.
Proof.
  revert found. induction kw as [|k kw IH]; intros found; simpl; [done |].
  destruct found as [|c found]; [done |]. simpl.
  intros [= E Hl]. rewrite E, Ascii.eqb_refl. by apply IH.
Qed.

Lemma spaces_keyword_at_split kw u :
  spaces_keyword_at kw u = true ->
  exists ws found rest,
    u = ws ++ found ++ rest
    /\ Forall (fun c => isspace c = true) ws
    /\ lower found = lower kw.
Proof.
  induction u as [|c u IH]; simpl.
  - destruct (keyword_at kw []) eqn:E; [| done].
    apply keyword_at_split in E as (found & rest & -> & Hl).
    intros _. by exists [], found, rest.
  - destruct (keyword_at kw (c :: u)) eqn:E.
    + apply keyword_at_split in E as (found & rest & -> & Hl).
      intros _. by exists [], found, rest.
    + destruct (isspace c) eqn:Ec; [| done].
      intros (ws & found & rest & -> & Hws & Hl)%IH.
      exists (c :: ws), found, rest. split; [done |].
      split; [by constructor | done].
Qed.

Lemma spaces_keyword_at_skip kw ws u :
  Forall (fun c => isspace c = true) ws ->
  spaces_keyword_at kw u = true ->
  spaces_keyword_at kw (ws ++ u) = true.
Proof.
  induction 1 as [|c ws Hc _ IH]; intros Hu; simpl app; [done |].
  simpl. destruct (keyword_at kw _); [done |]. rewrite Hc. by apply IH.
Qed.

Lemma spaces_keyword_at_join kw ws found rest :
  Forall (fun c => isspace c = true) ws ->
  lower found = lower kw ->
  spaces_keyword_at kw (ws ++ found ++ rest) = true.
Proof.
  intros Hws Hl. apply spaces_keyword_at_skip; [done |].
  destruct (found ++ rest) eqn:E; simpl; rewrite <- ?E;
    by rewrite keyword_at_join.
Qed.

Lemma pattern_at_split kw u :
  pattern_at kw u = true ->
  exists ws found rest,
    u = LF :: ws ++ found ++ rest
    /\ Forall (fun c => isspace c = true) ws
    /\ lower found = lower kw.
Proof.
  destruct u as [|c u]; simpl; [done |].
  destruct (Ascii.eqb_spec c LF) as [-> |]; [| done].
  intros (ws & found & rest & -> & H)%spaces_keyword_at_split.
  by exists ws, found, rest.
Qed.

Lemma pattern_at_join kw ws found rest :
  Forall (fun c => isspace c = true) ws ->
  lower found = lower kw ->
  pattern_at kw (LF :: ws ++ found ++ rest) = true.
Proof.
  intros Hws Hl. unfold pattern_at. rewrite Ascii.eqb_refl.
  by apply spaces_keyword_at_join.
Qed.

Lemma pattern_at_app kw u v :
  pattern_at kw u = true -> pattern_at kw (u ++ v) = true.
Proof.
  intros (ws & found & rest & -> & Hws & Hl)%pattern_at_split.
  simpl app. rewrite <- !app_assoc. by apply pattern_at_join.
Qed.

End Matching.

Section Searching.

Implicit Types (kw s t u : str) (i j m : nat).

Lemma re_search_cons kw c s :
  re_search kw (c :: s)
  = if pattern_at kw (c :: s) then Some 0 else S <$> re_search kw s.
Proof. reflexivity. Qed.

Lemma re_search_found kw s i :
  re_search kw s = Some i -> pattern_at kw (drop i s) = true.
Proof.
  revert i. induction s as [|c s IH]; intros i; [done |]; rewrite re_search_cons.
  - destruct (pattern_at kw (c :: s)) eqn:E.
    + intros ?. by simplify_eq.
    + destruct (re_search kw s) as [i'|]; [| done].
      intros ?. simplify_eq/=. by apply IH.
Qed.

Lemma re_search_leftmost kw s i j :
  re_search kw s = Some i -> j < i -> pattern_at kw (drop j s) = false.
Proof.
  revert i j. induction s as [|c s IH]; intros i j; [done |]; rewrite re_search_cons.
  - destruct (pattern_at kw (c :: s)) eqn:E.
    + intros ? ?. simplify_eq. lia.
    + destruct (re_search kw s) as [i'|] eqn:Hs; [| done].
      intros ? Hj. simplify_eq/=. destruct j as [|j]; [done |].
      simpl. apply (IH i'); [done | lia].
Qed.

Lemma re_search_exists kw s j :
  pattern_at kw (drop j s) = true ->
  exists i, re_search kw s = Some i /\ i <= j.
Proof.
  revert j. induction s as [|c s IH]; intros j Hj.
  - rewrite drop_nil in Hj. done.
  - rewrite re_search_cons. destruct (pattern_at kw (c :: s)) eqn:E.
    + exists 0. split; [done | lia].
    + destruct j as [|j]; [by rewrite drop_0, E in Hj |].
      destruct (IH j Hj) as (i & -> & Hi).
      exists (S i). split; [done | lia].
Qed.

Lemma re_search_bound kw s i : re_search kw s = Some i -> i < length s.
Proof.
  intros H%re_search_found.
  destruct (decide (i < length s)) as [|Hge]; [done |].
  rewrite drop_ge in H by lia. done.
Qed.

Lemma re_search_none kw s j :
  re_search kw s = None -> pattern_at kw (drop j s) = false.
Proof.
  intros H. destruct (pattern_at kw (drop j s)) eqn:E; [| done].
  apply re_search_exists in E as (i & Hi & _). congruence.
Qed.

(** A match inside a prefix of [t] is a match in [t]. *)
Lemma pattern_at_in_prefix kw r tail j :
  pattern_at kw (drop j r) = true ->
  pattern_at kw (drop j (r ++ tail)) = true /\ j < length r.
Proof.
  intros H.
  assert (j < length r) as Hj.
  { destruct (decide (j < length r)) as [|Hge]; [done |].
    rewrite drop_ge in H by lia. done. }
  split; [| done].
  rewrite drop_app_le by lia. by apply pattern_at_app.
Qed.

End Searching.

Section PlainKeywords.

Implicit Types (kw found : str) (c : ascii).

Lemma plain_keyword_last kw found :
  plain_keyword kw = true -> lower found = lower kw ->
  exists front c, found = front ++ [c] /\ isspace c = false.
Proof.
  unfold plain_keyword. intros [Hlast _]%andb_true_iff Hl.
  destruct (rev kw) as [|k r] eqn:Hk; [done |].
  apply negb_true_iff in Hlast.
  assert (rev (lower found) = rev (lower kw)) as Hrev by by rewrite Hl.
  unfold lower in Hrev. rewrite <- !map_rev, Hk in Hrev.
  destruct (rev found) as [|c r'] eqn:Hf; [done |].
  simpl in Hrev. injection Hrev as Hc _.
  exists (rev r'), c. split.
  - rewrite <- (rev_involutive found), Hf. done.
  - destruct (isspace c) eqn:Ec; [| done].
    rewrite (isspace_lower_char c Ec) in Hc. congruence.
Qed.

Lemma plain_keyword_no_newline kw found :
  plain_keyword kw = true -> lower found = lower kw -> LF ∉ found.
Proof.
  unfold plain_keyword. intros [_ Hall]%andb_true_iff Hl Hin.
  assert (lower_char LF ∈ lower kw) as Hk.
  { rewrite <- Hl. unfold lower. apply list_elem_of_fmap. by exists LF. }
  unfold lower in Hk. apply list_elem_of_fmap in Hk as (k & Hk & Hin').
  rewrite forallb_forall in Hall.
  apply list_elem_of_In in Hin'. specialize (Hall k Hin').
  apply negb_true_iff in Hall. rewrite <- Hk in Hall.
  change (lower_char LF) with LF in Hall.
  by rewrite Ascii.eqb_refl in Hall.
Qed.

End PlainKeywords.

(** Both sides of an equation between concatenations, nested to the right. *)
Local Ltac list_normal :=
  repeat (rewrite <- app_assoc || rewrite <- app_comm_cons
          || rewrite app_nil_l);
  reflexivity.

Section Cutting.

Implicit Types (kw other s t u : str) (i j m : nat).

Lemma pattern_at_spaces kw u :
  pattern_at kw u = true -> spaces_keyword_at kw u = true.
Proof.
  intros (ws & found & rest & -> & Hws & Hl)%pattern_at_split.
  apply (spaces_keyword_at_join kw (LF :: ws)); [| done].
  by constructor.
Qed.

(** A match that starts before the leftmost match of another pattern ends
    before it, and survives the cut made there. *)
Lemma match_survives_cut kw other t i m :
  plain_keyword kw = true ->
  lstrip t = t ->
  re_search other t = Some m ->
  i < m ->
  pattern_at kw (drop i t) = true ->
  pattern_at kw (drop i (strip (take m t))) = true
  /\ take i (strip (take m t)) = take i t.
Proof.
  intros Hplain Ht Hm Him Hi.
  pose proof (re_search_bound _ _ _ Hm) as Hmt.
  pose proof (re_search_found _ _ _ Hm) as Hm0.
  pose proof (re_search_leftmost _ _ _ i Hm Him) as Hleft.
  destruct (pattern_at_split _ _ Hi) as (ws & found & rest & Hdrop & Hws & Hl).
  set (y := ws ++ found ++ rest) in *.
  destruct (m - i) as [|n] eqn:Hn; [lia |].
  assert (drop m t = drop n y) as Hdm.
  { replace m with (i + S n) by lia. by rewrite <- drop_drop, Hdrop. }
  assert (take m t = take i t ++ LF :: take n y) as Htm.
  { rewrite <- (take_drop i (take m t)) at 1.
    rewrite take_take, Nat.min_l by lia. f_equal.
    replace m with (i + S n) by lia.
    by rewrite <- take_drop_commute, Hdrop. }
  rewrite Hdm in Hm0.
  destruct (decide (n <= length ws)) as [Hn1 | Hn1].
  { (* the other match would start inside the run of spaces *)
    exfalso. apply pattern_at_spaces in Hm0.
    assert (spaces_keyword_at other y = true) as Hy.
    { rewrite <- (take_drop n y).
      apply spaces_keyword_at_skip; [| done].
      unfold y. rewrite take_app_le by done.
      by apply Forall_take. }
    rewrite Hdrop in Hleft. unfold pattern_at in Hleft.
    rewrite Ascii.eqb_refl in Hleft. congruence. }
  destruct (decide (n < length ws + length found)) as [Hn2 | Hn2].
  { (* the other match would start inside the keyword *)
    exfalso. apply (plain_keyword_no_newline kw found Hplain Hl).
    unfold y in Hm0. rewrite drop_app_ge, drop_app_le in Hm0 by lia.
    destruct (drop (n - length ws) found) as [|c d] eqn:Hd.
    { apply (f_equal length) in Hd. rewrite length_drop in Hd.
      simpl in Hd. lia. }
    assert (c = LF) as ->.
    { simpl in Hm0. by destruct (Ascii.eqb_spec c LF). }
    rewrite <- (take_drop (n - length ws) found), Hd.
    apply elem_of_app. right. apply list_elem_of_here. }
  destruct (plain_keyword_last kw found Hplain Hl) as (front & c & -> & Hc).
  set (beyond := take (n - length ws - length (front ++ [c])) rest).
  assert (take n y = ws ++ front ++ c :: beyond) as Hy.
  { unfold y, beyond. rewrite take_app_ge by lia. f_equal.
    rewrite take_app_ge by lia. list_normal. }
  assert (strip (take m t)
          = take i t ++ LF :: ws ++ front ++ c :: rstrip beyond) as Hstrip.
  { unfold strip. rewrite lstrip_take by done. rewrite Htm, Hy.
    replace (take i t ++ LF :: ws ++ front ++ c :: beyond)
      with ((take i t ++ LF :: ws ++ front) ++ c :: beyond) by list_normal.
    rewrite rstrip_app_nonspace by done. list_normal. }
  assert (length (take i t) = i) as Hlen by (rewrite length_take; lia).
  rewrite Hstrip. split.
  - rewrite drop_app_length' by done.
    replace (LF :: ws ++ front ++ c :: rstrip beyond)
      with (LF :: ws ++ (front ++ [c]) ++ rstrip beyond) by list_normal.
    by apply pattern_at_join.
  - by rewrite take_app_length'.
Qed.

End Cutting.

Section CleanResponse.

Implicit Types (kw other s t : str) (i j m : nat) (found : option nat).

Lemma strip_take_length t m :
  lstrip t = t -> length (strip (take m t)) <= m.
Proof.
  intros Ht. unfold strip. rewrite lstrip_take by done.
  destruct (rstrip_prefix (take m t)) as [spaces Hs].
  apply (f_equal length) in Hs. rewrite length_app, length_take in Hs. lia.
Qed.

(** One turn of the loop on a text already cut at the leftmost match of
    an earlier pattern. *)
Lemma clean_step_cut kw other t m :
  plain_keyword kw = true ->
  lstrip t = t ->
  re_search other t = Some m ->
  clean_step (cut_at t (Some m)) kw
  = cut_at t (earlier (Some m) (re_search kw t)).
Proof.
  intros Hplain Ht Hm. unfold cut_at at 1, clean_step.
  destruct (strip_take_prefix t m Ht) as [tail Htail].
  pose proof (strip_take_length t m Ht) as Hlen.
  set (r := strip (take m t)) in *.
  assert (forall j, pattern_at kw (drop j r) = true ->
                    pattern_at kw (drop j t) = true /\ j < m) as Hin.
  { intros j Hj.
    destruct (pattern_at_in_prefix kw r tail j Hj) as [H1 H2].
    rewrite <- Htail in H1. split; [done | lia]. }
  destruct (re_search kw t) as [i|] eqn:Hi; simpl earlier.
  - destruct (decide (i < m)) as [Him | Him].
    + destruct (match_survives_cut kw other t i m Hplain Ht Hm Him
                  (re_search_found _ _ _ Hi)) as [Hat Htake].
      fold r in Hat, Htake.
      destruct (re_search_exists kw r i Hat) as (i' & Hi' & Hle).
      assert (i' = i) as ->.
      { destruct (decide (i' = i)) as [|Hne]; [done |].
        apply re_search_found, Hin in Hi' as [Hi' _].
        rewrite (re_search_leftmost kw t i i' Hi) in Hi' by lia. done. }
      rewrite Hi', Htake. simpl. by rewrite Nat.min_r by lia.
    + destruct (re_search kw r) as [i'|] eqn:Hi'.
      * apply re_search_found, Hin in Hi' as [Hi' Hlt].
        rewrite (re_search_leftmost kw t i i' Hi) in Hi' by lia. done.
      * simpl. by rewrite Nat.min_l by lia.
  - destruct (re_search kw r) as [i'|] eqn:Hi'; [| done].
    apply re_search_found, Hin in Hi' as [Hi' _].
    by rewrite (re_search_none kw t i' Hi) in Hi'.
Qed.

Lemma clean_loop_cut (patterns : list str) t found :
  Forall (fun kw => plain_keyword kw = true) patterns ->
  lstrip t = t ->
  (found = None \/ exists other, re_search other t = found) ->
  fold_left clean_step patterns (cut_at t found)
  = cut_at t (fold_left (fun found kw => earlier found (re_search kw t))
                        patterns found).
Proof.
  intros Hall Ht. revert found.
  induction Hall as [|kw patterns Hkw _ IH]; intros found Hfound; [done |].
  simpl fold_left.
  assert (clean_step (cut_at t found) kw
          = cut_at t (earlier found (re_search kw t))) as ->.
  { destruct found as [m|]; [| done].
    destruct Hfound as [| [other Hm]]; [done |].
    by apply (clean_step_cut kw other). }
  apply IH.
  destruct found as [m|], (re_search kw t) as [i|] eqn:Hi; simpl.
  - right. destruct (Nat.min_spec m i) as [[_ ->] | [_ ->]].
    + destruct Hfound as [| [other Hm]]; [done | by exists other].
    + by exists kw.
  - destruct Hfound as [| [other Hm]]; [done |]. right. by exists other.
  - right. by exists kw.
  - by left.
Qed.

Lemma plain_leak_patterns :
  Forall (fun kw => plain_keyword kw = true) leak_patterns.
Proof. repeat constructor. Qed.

Lemma clean_response_cut (response : str) :
  _clean_response response
  = cut_at (strip response) (first_leak leak_patterns (strip response)).
Proof.
  unfold _clean_response, first_leak.
  change (fold_left clean_step leak_patterns (strip response))
    with (fold_left clean_step leak_patterns (cut_at (strip response) None)).
  rewrite (clean_loop_cut leak_patterns (strip response) None
             plain_leak_patterns (strip_left_fixed response));
    [| by left].
  destruct (fold_left _ leak_patterns None) as [i|]; simpl; apply strip_idem.
Qed.

End CleanResponse.

Section FirstLeak.

Implicit Types (kw s : str) (patterns : list str) (i j : nat).

Lemma earlier_assoc (a b c : option nat) :
  earlier (earlier a b) c = earlier a (earlier b c).
Proof.
  destruct a, b, c; simpl; try done. by rewrite Nat.min_assoc.
Qed.

Lemma fold_earlier patterns s (found : option nat) :
  fold_left (fun found kw => earlier found (re_search kw s)) patterns found
  = earlier found (first_leak patterns s).
Proof.
  unfold first_leak. revert found.
  induction patterns as [|kw patterns IH]; intros found; simpl.
  - by destruct found.
  - rewrite IH, (IH (re_search kw s)). apply earlier_assoc.
Qed.

Lemma first_leak_cons kw patterns s :
  first_leak (kw :: patterns) s
  = earlier (re_search kw s) (first_leak patterns s).
Proof. unfold first_leak at 1. simpl. apply fold_earlier. Qed.

Lemma first_leak_none patterns s :
  first_leak patterns s = None
  <-> Forall (fun kw => re_search kw s = None) patterns.
Proof.
  induction patterns as [|kw patterns IH].
  - split; [by constructor | done].
  - rewrite first_leak_cons, Forall_cons, <- IH.
    destruct (re_search kw s) as [a|]; simpl.
    + split; [by destruct (first_leak patterns s) | by intros [? _]].
    + split; [by split | by intros [_ ?]].
Qed.

(** The position found is the start of a match, and no pattern matches
    further left. *)
Lemma first_leak_some patterns s i :
  first_leak patterns s = Some i ->
  (exists kw, kw ∈ patterns /\ pattern_at kw (drop i s) = true)
  /\ forall kw j, kw ∈ patterns -> pattern_at kw (drop j s) = true -> i <= j.
Proof.
  revert i. induction patterns as [|kw patterns IH]; intros i; [done |].
  rewrite first_leak_cons.
  assert (forall a, re_search kw s = Some a ->
                    forall j, pattern_at kw (drop j s) = true -> a <= j)
    as Hleft.
  { intros a Ha j Hj. destruct (decide (a <= j)) as [|Hlt]; [done |].
    rewrite (re_search_leftmost kw s a j Ha) in Hj by lia. done. }
  destruct (re_search kw s) as [a|] eqn:Ha,
           (first_leak patterns s) as [b|] eqn:Hb; simpl; intros ?;
    simplify_eq.
  - destruct (IH b eq_refl) as [(kw' & Hin & Hat) Hmin].
    split.
    + destruct (Nat.min_spec a b) as [[_ ->] | [_ ->]].
      * exists kw. split; [apply list_elem_of_here |].
        by apply re_search_found.
      * exists kw'. split; [by apply list_elem_of_further | done].
    + intros kw'' j [-> | Hin']%elem_of_cons Hj.
      * specialize (Hleft a eq_refl j Hj). lia.
      * specialize (Hmin kw'' j Hin' Hj). lia.
  - split.
    + exists kw. split; [apply list_elem_of_here |].
      by apply re_search_found.
    + intros kw'' j [-> | Hin']%elem_of_cons Hj; [by apply Hleft |].
      apply first_leak_none in Hb.
      rewrite Forall_forall in Hb.
      by rewrite (re_search_none kw'' s j (Hb kw'' Hin')) in Hj.
  - destruct (IH i eq_refl) as [(kw' & Hin & Hat) Hmin].
    split.
    + exists kw'. split; [by apply list_elem_of_further | done].
    + intros kw'' j [-> | Hin']%elem_of_cons Hj; [| by apply (Hmin kw'' j)].
      by rewrite (re_search_none _ s j Ha) in Hj.
Qed.

Lemma lstrip_suffix s : exists spaces, s = spaces ++ lstrip s.
Proof.
  induction s as [|c s [spaces IH]]; simpl; [by exists [] |].
  destruct (isspace c); [| by exists []].
  exists (c :: spaces). simpl. by rewrite <- IH.
Qed.

(** Trimming creates no match. *)
Lemma re_search_strip kw s :
  re_search kw s = None -> re_search kw (strip s) = None.
Proof.
  intros Hs. destruct (re_search kw (strip s)) as [i|] eqn:Hi; [| done].
  apply re_search_found in Hi. unfold strip in Hi.
  destruct (rstrip_prefix (lstrip s)) as [trailing Ht].
  destruct (lstrip_suffix s) as [leading Hl].
  destruct (pattern_at_in_prefix kw _ trailing i Hi) as [Hi' _].
  rewrite <- Ht in Hi'.
  assert (drop (length leading + i) s = drop i (lstrip s)) as Hd.
  { rewrite Hl at 1. rewrite drop_app_ge by lia. f_equal. lia. }
  rewrite <- Hd in Hi'. by rewrite (re_search_none kw s _ Hs) in Hi'.
Qed.

End FirstLeak.

(** C5, as the code has it.  Leak stripping first trims the text.  When
    the text contains none of the leak patterns the result is the trimmed
    text, hence the text itself when it has no leading or trailing
    whitespace.  When some pattern matches the trimmed text, the result is
    the trimmed text cut at the start of the leftmost match of any pattern
    and trimmed again. *)
Theorem clean_response_cuts_at_first_leak (response : str) :
  let trimmed := strip response in
  _clean_response response
  = cut_at trimmed (first_leak leak_patterns trimmed)
  /\ (Forall (fun kw => re_search kw response = None) leak_patterns ->
      _clean_response response = trimmed
      /\ (trimmed = response -> _clean_response response = response))
  /\ (forall start,
        first_leak leak_patterns trimmed = Some start ->
        _clean_response response = strip (take start trimmed)
        /\ (exists kw, kw ∈ leak_patterns
                       /\ pattern_at kw (drop start trimmed) = true)
        /\ forall kw j,
             kw ∈ leak_patterns ->
             pattern_at kw (drop j trimmed) = true -> start <= j).
Proof.
  intros trimmed. pose proof (clean_response_cut response) as Hcut.
  fold trimmed in Hcut. split; [done |]. split.
  - intros Hnone.
    assert (first_leak leak_patterns trimmed = None) as Hfirst.
    { apply first_leak_none. eapply Forall_impl; [exact Hnone |].
      intros kw. apply re_search_strip. }
    rewrite Hfirst in Hcut. split; [done |]. intros Heq.
    rewrite Hcut. exact Heq.
  - intros start Hstart. rewrite Hstart in Hcut. split; [done |].
    by apply first_leak_some.
Qed.

Lemma clean_response_cuts_at_first_leak_witness :
  _clean_response (lit " hello ") = lit "hello"
  /\ _clean_response (lit "Paris.") = lit "Paris."
  /\ _clean_response (lit "  Paris. " ++ [LF; LF] ++ lit "question: and?"
                      ++ [LF] ++ lit "Context: none ")
     = lit "Paris.".
Proof.
  split; [| split].
  - destruct (clean_response_cuts_at_first_leak (lit " hello "))
      as (_ & H & _).
    apply H. repeat constructor.
  - destruct (clean_response_cuts_at_first_leak (lit "Paris."))
      as (_ & H & _).
    apply H; [repeat constructor | reflexivity].
  - destruct (clean_response_cuts_at_first_leak
                (lit "  Paris. " ++ [LF; LF] ++ lit "question: and?"
                 ++ [LF] ++ lit "Context: none ")) as (_ & _ & H).
    apply (H 7). vm_compute. reflexivity.
Defined.

(** C5, as the specification has it, fails.  A text without any leak
    pattern comes back changed when it has surrounding whitespace, and a
    text whose only match starts at its very first character is not cut
    there: the match is gone once the text is trimmed. *)
Lemma clean_response_changes_unmatched_text :
  (Forall (fun kw => re_search kw (lit " hello ") = None) leak_patterns
   /\ _clean_response (lit " hello ") = lit "hello"
   /\ _clean_response (lit " hello ") <> lit " hello ")
  /\ (re_search (lit "Question:") (LF :: lit "Question: why?") = Some 0
      /\ _clean_response (LF :: lit "Question: why?") = lit "Question: why?").
Proof.
  split; [split; [repeat constructor | split; [reflexivity | discriminate]] |].
  split; reflexivity.
Qed.


(** * Further properties of the sanitisation stages *)

Section CleanResponseMore.

Implicit Types (kw s t : str) (i j m : nat).

Lemma trimmed_head_not_newline kw t :
  lstrip t = t -> pattern_at kw (drop 0 t) = false.
Proof.
  intros [-> | (c & u & -> & E)]%lstrip_fixed; [done |].
  rewrite drop_0. unfold pattern_at.
  destruct (Ascii.eqb_spec c LF) as [-> |]; [| done].
  vm_compute in E. done.
Qed.

Lemma strip_take_nonempty t m :
  lstrip t = t -> t <> [] -> 0 < m -> strip (take m t) <> [].
Proof.
  intros [-> | (c & u & -> & E)]%lstrip_fixed Hne Hm; [done |].
  destruct m as [|m]; [lia |]. unfold strip. simpl take.
  simpl lstrip. rewrite E. by rewrite rstrip_cons_nonspace.
Qed.

(** What [_clean_response] returns: free of leak patterns, trimmed, and a
    prefix of the trimmed input. *)
Lemma clean_response_shape (response : str) :
  let result := _clean_response response in
  Forall (fun kw => re_search kw result = None) leak_patterns
  /\ strip result = result
  /\ exists tail, strip response = result ++ tail.
Proof.
  intros result. unfold result. rewrite clean_response_cut.
  set (t := strip response).
  assert (lstrip t = t) as Ht by apply strip_left_fixed.
  destruct (first_leak leak_patterns t) as [m|] eqn:Hm; simpl.
  - destruct (first_leak_some _ _ _ Hm) as [_ Hmin].
    destruct (strip_take_prefix t m Ht) as [tail Htail].
    pose proof (strip_take_length t m Ht) as Hlen.
    split; [| split; [apply strip_idem | by exists tail]].
    apply Forall_forall. intros kw Hkw.
    destruct (re_search kw (strip (take m t))) as [j|] eqn:Hj; [| done].
    apply re_search_found in Hj.
    destruct (pattern_at_in_prefix kw _ tail j Hj) as [Hjt Hjlen].
    rewrite <- Htail in Hjt. specialize (Hmin kw j Hkw Hjt). lia.
  - split; [by apply first_leak_none |].
    split; [apply strip_idem | exists []; by rewrite app_nil_r].
Qed.

End CleanResponseMore.

(** X1. No leak pattern survives leak stripping: whatever the input, the
    output of [_clean_response] matches none of the six patterns at any
    position, has no leading or trailing whitespace, and a second pass
    returns it unchanged. *)
Theorem clean_response_leaves_no_leak (response : str) :
  let result := _clean_response response in
  (forall kw j, kw ∈ leak_patterns -> pattern_at kw (drop j result) = false)
  /\ strip result = result
  /\ _clean_response result = result.
Proof.
  intros result.
  destruct (clean_response_shape response) as (Hnone & Htrim & _).
  fold result in Hnone, Htrim. split; [| split; [done |]].
  - intros kw j Hkw. rewrite Forall_forall in Hnone.
    by apply re_search_none, Hnone.
  - rewrite clean_response_cut, Htrim.
    by rewrite (proj2 (first_leak_none leak_patterns result) Hnone).
Qed.

Lemma clean_response_is_prefix_aux (response : str) :
  _clean_response response = [] <-> strip response = [].
Proof.
  destruct (clean_response_shape response) as (_ & _ & Hpre). split.
  - rewrite clean_response_cut. set (t := strip response).
    assert (lstrip t = t) as Ht by apply strip_left_fixed.
    destruct (first_leak leak_patterns t) as [m|] eqn:Hm; simpl; [| done].
    intros Hempty. destruct (decide (t = [])) as [| Hne]; [done |].
    exfalso. apply (strip_take_nonempty t m Ht Hne); [| done].
    destruct m as [|m]; [| lia].
    destruct (first_leak_some _ _ _ Hm) as [(kw & _ & Hat) _].
    by rewrite trimmed_head_not_newline in Hat.
  - destruct Hpre as [tail Htail]. intros Hblank. rewrite Hblank in Htail.
    symmetry in Htail. by apply app_eq_nil in Htail as [? _].
Qed.

(** X2. Leak stripping only removes text: its output is a prefix of the
    trimmed input, and it is empty exactly when the input is blank. *)
Theorem clean_response_is_prefix (response : str) :
  (exists tail, strip response = _clean_response response ++ tail)
  /\ (_clean_response response = [] <-> strip response = []).
Proof.
  destruct (clean_response_shape response) as (_ & _ & Hpre).
  split; [done | apply clean_response_is_prefix_aux].
Qed.

Lemma clean_response_leaves_no_leak_witness :
  pattern_at (lit "Question:")
    (drop 6 (_clean_response
               (lit "Paris." ++ LF :: lit "Question: and Rome?"))) = false.
Proof.
  destruct (clean_response_leaves_no_leak
              (lit "Paris." ++ LF :: lit "Question: and Rome?"))
    as (H & _ & _).
  apply H. unfold leak_patterns. apply list_elem_of_here.
Defined.

Lemma clean_response_is_prefix_witness :
  _clean_response [" "%char; LF; " "%char] = [].
Proof.
  apply (proj2 (proj2 (clean_response_is_prefix [" "%char; LF; " "%char]))).
  reflexivity.
Defined.


Section ValidateMore.

Lemma validate_loop_cases (indicators : list str) (low response : str) :
  validate_loop indicators low response = NO_INFORMATION
  \/ (validate_loop indicators low response = response
      /\ Forall (fun indicator => ~ occurs_in indicator low) indicators).
Proof.
  induction indicators as [|i rest IH]; simpl.
  - right. split; [done | constructor].
  - destruct (contains i low) eqn:E; [by left |].
    destruct IH as [IH | [IH Hall]]; [by left |].
    right. split; [done |]. constructor; [| done].
    by apply not_contains_spec.
Qed.

Lemma sentinel_has_no_indicator :
  Forall (fun indicator => ~ occurs_in indicator (lower NO_INFORMATION))
         generic_indicators.
Proof.
  repeat (apply Forall_cons; split;
          [apply not_contains_spec; vm_compute; reflexivity |]).
  apply Forall_nil. done.
Qed.

End ValidateMore.

(** X3. What provenance validation returns never contains a hedge phrase
    in its lower-cased text: it is the response itself or the sentinel,
    the sentinel passes the validation, and validating twice is validating
    once. *)
Theorem validate_context_response_output (response : str) :
  let result := _validate_context_response response in
  (result = response \/ result = NO_INFORMATION)
  /\ Forall (fun indicator => ~ occurs_in indicator (lower result))
            generic_indicators
  /\ _validate_context_response result = result.
Proof.
  intros result. unfold result, _validate_context_response.
  destruct (validate_loop_cases generic_indicators (lower response) response)
    as [-> | [-> Hall]].
  - split; [by right |]. split; [apply sentinel_has_no_indicator |].
    apply validate_loop_miss, sentinel_has_no_indicator.
  - split; [by left |]. split; [done |]. by apply validate_loop_miss.
Qed.

Section DetectRepetitionMore.

Lemma app_period_nonempty (s : str) : s ++ lit "." <> [].
Proof. by destruct s. Qed.

Lemma detect_repetition_nonempty (response : str) :
  response <> [] -> _detect_repetition response <> [].
Proof.
  intros Hne. unfold _detect_repetition.
  repeat match goal with
         | |- context [if ?b then _ else _] => destruct b
         | |- context [match ?o with Some _ => _ | None => _ end] =>
             destruct o
         end;
    try done; apply app_period_nonempty.
Qed.

Lemma detect_repetition_short (response : str) :
  length response < 100 -> _detect_repetition response = response.
Proof.
  intros Hlen. unfold _detect_repetition.
  apply Nat.ltb_lt in Hlen. rewrite Hlen. by rewrite orb_true_r.
Qed.

End DetectRepetitionMore.

(** X4. The three stages never turn a text into the empty string on their
    own account: the sanitised answer is empty exactly when the raw output
    of the generator is blank.  So the only answers [ask_question] does not
    cache are those of a generator that returned nothing but whitespace. *)
Theorem sanitize_empty_iff_blank (raw : str) :
  _validate_context_response (_detect_repetition (_clean_response raw)) = []
  <-> strip raw = [].
Proof.
  pose proof (clean_response_is_prefix_aux raw) as Hclean.
  split.
  - intros Hempty. apply Hclean.
    destruct (decide (_clean_response raw = [])) as [| Hne]; [done |].
    apply detect_repetition_nonempty in Hne.
    unfold _validate_context_response in Hempty.
    destruct (validate_loop_cases generic_indicators
                (lower (_detect_repetition (_clean_response raw)))
                (_detect_repetition (_clean_response raw)))
      as [H | [H _]]; rewrite H in Hempty; done.
  - intros Hblank. apply Hclean in Hblank. rewrite Hblank. reflexivity.
Qed.

Lemma sanitize_empty_iff_blank_witness :
  _validate_context_response
    (_detect_repetition (_clean_response [" "%char; LF])) = [].
Proof.
  apply (proj2 (sanitize_empty_iff_blank [" "%char; LF])). reflexivity.
Defined.

(** X5. Repetition detection returns the response as it is or a text that
    ends in a period; it leaves every response shorter than 100 characters
    alone and never returns the empty string for a response that is not
    empty. *)
Theorem detect_repetition_output (response : str) :
  (_detect_repetition response = response
   \/ exists body, _detect_repetition response = body ++ lit ".")
  /\ (length response < 100 -> _detect_repetition response = response)
  /\ (response <> [] -> _detect_repetition response <> []).
Proof.
  split; [| split; [apply detect_repetition_short
                   | apply detect_repetition_nonempty]].
  unfold _detect_repetition.
  repeat match goal with
         | |- context [if ?b then _ else _] => destruct b
         | |- context [match ?o with Some _ => _ | None => _ end] =>
             destruct o
         end;
    try (by left); right; by eexists.
Qed.

Lemma detect_repetition_output_witness :
  _detect_repetition (lit "Paris is the capital of France.")
  = lit "Paris is the capital of France."
  /\ _detect_repetition (lit "Paris.") <> [].
Proof.
  destruct (detect_repetition_output
              (lit "Paris is the capital of France.")) as (_ & H & _).
  destruct (detect_repetition_output (lit "Paris.")) as (_ & _ & H').
  split; [apply H; vm_compute; lia | apply H'; discriminate].
Defined.


(** * Further properties of context assembly *)

Section FormatDocsMore.

Implicit Types (docs : list Document) (seen : gset str).

Lemma join_cons (sep p : str) (rest : list str) :
  exists more, join sep (p :: rest) = p ++ more.
Proof.
  destruct rest as [|q rest]; simpl.
  - exists []. by rewrite app_nil_r.
  - by eexists.
Qed.

Lemma unique_docs_head (doc : Document) docs :
  unique_docs (doc :: docs)
  = doc :: dedup_loop [] {[fingerprint doc]} docs.
Proof.
  unfold unique_docs. rewrite dedup_loop_cons.
  rewrite decide_False by set_solver. by rewrite union_empty_r_L.
Qed.

Lemma truncate_length (formatted : str) :
  length (truncate formatted) <= MAX_CONTEXT_LENGTH + length TRUNCATION_MARK.
Proof.
  unfold truncate. destruct (MAX_CONTEXT_LENGTH <? length formatted) eqn:E.
  - rewrite length_app, length_take. lia.
  - apply Nat.ltb_ge in E. lia.
Qed.

Lemma dedup_loop_distinct seen docs :
  NoDup (map fingerprint docs) ->
  (forall doc, doc ∈ docs -> fingerprint doc ∉ seen) ->
  dedup_loop [] seen docs = docs.
Proof.
  revert seen. induction docs as [|doc docs IH]; intros seen Hnd Hfresh.
  - done.
  - rewrite dedup_loop_cons. simpl in Hnd. apply NoDup_cons in Hnd as [Hd Hnd].
    rewrite decide_False by (apply Hfresh, list_elem_of_here).
    f_equal. apply IH; [done |].
    intros d Hin [Heq%elem_of_singleton | Hs]%elem_of_union.
    + apply Hd. apply list_elem_of_fmap. by exists d.
    + by apply (Hfresh d (list_elem_of_further _ _ _ Hin)).
Qed.

Lemma unique_docs_distinct docs :
  NoDup (map fingerprint docs) -> unique_docs docs = docs.
Proof.
  intros Hnd. apply dedup_loop_distinct; [done |]. intros. set_solver.
Qed.

Lemma unique_docs_idem docs : unique_docs (unique_docs docs) = unique_docs docs.
Proof. apply unique_docs_distinct, (dedup_loop_NoDup ∅). Qed.

Lemma dedup_loop_snoc seen docs doc :
  dedup_loop [] seen (docs ++ [doc])
  = dedup_loop [] seen docs
    ++ (if decide (fingerprint doc ∈ seen
                   \/ fingerprint doc ∈ map fingerprint docs)
        then [] else [doc]).
Proof.
  revert seen. induction docs as [|d docs IH]; intros seen.
  - simpl app. rewrite dedup_loop_cons. simpl.
    destruct (decide (fingerprint doc ∈ seen)).
    + by rewrite decide_True by by left.
    + rewrite decide_False; [done |]. intros [? | ?%elem_of_nil]; done.
  - simpl app. rewrite !dedup_loop_cons.
    destruct (decide (fingerprint d ∈ seen)) as [Hd | Hd]; rewrite IH.
    + f_equal. apply decide_ext. simpl map. rewrite elem_of_cons.
      split; [tauto |]. intros [? | [Heq | ?]]; [tauto | | tauto].
      left. by rewrite Heq.
    + rewrite (dedup_loop_acc [d]). simpl app. do 2 f_equal.
      apply decide_ext. simpl map.
      rewrite elem_of_cons, elem_of_union, elem_of_singleton.
      tauto.
Qed.

End FormatDocsMore.

(** X6. Context assembly never returns an empty context: without
    fragments it is the fixed placeholder, and with fragments the first one
    is always kept and the context starts with its marker. *)
Theorem format_docs_never_empty (docs : list Document) :
  _format_docs docs <> []
  /\ (docs = [] -> _format_docs docs = NO_DOCUMENTS)
  /\ (forall doc rest,
        docs = doc :: rest ->
        (exists kept, unique_docs docs = doc :: kept)
        /\ exists text, _format_docs docs = lit "- " ++ text).
Proof.
  assert (forall doc rest,
            (exists kept, unique_docs (doc :: rest) = doc :: kept)
            /\ exists text, _format_docs (doc :: rest) = lit "- " ++ text)
    as Hcons.
  { intros doc rest. split; [eexists; apply unique_docs_head |].
    unfold _format_docs. rewrite unique_docs_head. simpl map.
    destruct (join_cons [LF; LF] (format_doc doc)
                (map format_doc (dedup_loop [] {[fingerprint doc]} rest)))
      as [more ->].
    unfold format_doc. rewrite <- app_assoc.
    set (text := _ ++ more). unfold truncate.
    destruct (MAX_CONTEXT_LENGTH <? _); [| by exists text].
    exists (take (MAX_CONTEXT_LENGTH - 2) text ++ TRUNCATION_MARK).
    rewrite take_app. change (length (lit "- ")) with 2.
    rewrite take_ge by (unfold MAX_CONTEXT_LENGTH; simpl; lia).
    by rewrite <- app_assoc. }
  split; [| split; [by intros -> | by intros doc rest ->]].
  destruct docs as [|doc rest]; [done |].
  destruct (Hcons doc rest) as [_ [text ->]]. done.
Qed.

Lemma format_docs_never_empty_witness :
  (exists kept,
     unique_docs [fragment_one; fragment_two; fragment_three]
     = fragment_one :: kept)
  /\ exists text,
       _format_docs [fragment_one; fragment_two; fragment_three]
       = lit "- " ++ text.
Proof.
  destruct (format_docs_never_empty
              [fragment_one; fragment_two; fragment_three]) as (_ & _ & H).
  apply (H fragment_one [fragment_two; fragment_three]). reflexivity.
Defined.

(** X7. The context is bounded: whatever the fragments, it has at most
    [MAX_CONTEXT_LENGTH] = 12 * 1000 characters plus the 20 characters of
    the truncation mark, and when the joined fragments exceed the limit it
    is their first [MAX_CONTEXT_LENGTH] characters followed by the mark. *)
Theorem format_docs_length_bound (docs : list Document) :
  length (_format_docs docs) <= MAX_CONTEXT_LENGTH + length TRUNCATION_MARK
  /\ MAX_CONTEXT_LENGTH = 12 * 1000
  /\ length TRUNCATION_MARK = 20
  /\ (docs <> [] ->
      MAX_CONTEXT_LENGTH
      < length (join [LF; LF] (map format_doc (unique_docs docs))) ->
      _format_docs docs
      = take MAX_CONTEXT_LENGTH
             (join [LF; LF] (map format_doc (unique_docs docs)))
        ++ TRUNCATION_MARK
      /\ length (_format_docs docs)
         = MAX_CONTEXT_LENGTH + length TRUNCATION_MARK).
Proof.
  split; [| split; [done | split; [done |]]].
  - destruct docs as [|doc rest]; [| apply truncate_length].
    change (length (_format_docs [])) with 28.
    change (length TRUNCATION_MARK) with 20. unfold MAX_CONTEXT_LENGTH. lia.
  - intros Hne Hlong. destruct docs as [|doc rest]; [done |].
    unfold _format_docs, truncate.
    apply Nat.ltb_lt in Hlong as Hlong'. rewrite Hlong'.
    split; [done |]. rewrite length_app, length_take. lia.
Qed.

Lemma format_docs_length_bound_witness :
  _format_docs [long_fragment]
  = take MAX_CONTEXT_LENGTH
         (join [LF; LF] (map format_doc (unique_docs [long_fragment])))
    ++ TRUNCATION_MARK
  /\ length (_format_docs [long_fragment])
     = MAX_CONTEXT_LENGTH + length TRUNCATION_MARK.
Proof.
  destruct (format_docs_length_bound [long_fragment]) as (_ & _ & _ & H).
  apply H; [discriminate |]. apply Nat.ltb_lt. vm_compute. reflexivity.
Defined.

(** X8. Deduplication keeps exactly the first fragment of each
    fingerprint (the first 200 characters, trimmed): appending a fragment
    whose fingerprint was seen changes nothing, appending one with a new
    fingerprint keeps it at the end; fragments with pairwise distinct
    fingerprints are all kept, and deduplicating twice is deduplicating
    once. *)
Theorem unique_docs_first_of_each_fingerprint (docs : list Document)
    (doc : Document) :
  (fingerprint doc ∈ map fingerprint docs ->
   unique_docs (docs ++ [doc]) = unique_docs docs)
  /\ (fingerprint doc ∉ map fingerprint docs ->
      unique_docs (docs ++ [doc]) = unique_docs docs ++ [doc])
  /\ (NoDup (map fingerprint docs) -> unique_docs docs = docs)
  /\ unique_docs (unique_docs docs) = unique_docs docs
  /\ _format_docs (unique_docs docs) = _format_docs docs.
Proof.
  split; [| split; [| split; [| split]]].
  - intros Hin. unfold unique_docs. rewrite dedup_loop_snoc.
    rewrite decide_True by by right. by rewrite app_nil_r.
  - intros Hnew. unfold unique_docs. rewrite dedup_loop_snoc.
    rewrite decide_False; [done |].
    intros [H | H]; [by apply elem_of_empty in H | done].
  - apply unique_docs_distinct.
  - apply unique_docs_idem.
  - destruct docs as [|d rest]; [done |].
    rewrite unique_docs_head. unfold _format_docs.
    rewrite <- (unique_docs_head d rest), unique_docs_idem.
    by rewrite unique_docs_head.
Qed.

Lemma unique_docs_first_of_each_fingerprint_witness :
  unique_docs ([fragment_one; fragment_two] ++ [fragment_three])
  = unique_docs [fragment_one; fragment_two]
  /\ unique_docs ([fragment_one] ++ [fragment_two])
     = unique_docs [fragment_one] ++ [fragment_two]
  /\ unique_docs [fragment_one; fragment_two] = [fragment_one; fragment_two].
Proof.
  destruct (unique_docs_first_of_each_fingerprint
              [fragment_one; fragment_two] fragment_three) as (H1 & _ & H3 & _).
  destruct (unique_docs_first_of_each_fingerprint
              [fragment_one] fragment_two) as (_ & H2 & _).
  split; [| split].
  - apply H1. simpl map.
    replace (fingerprint fragment_three) with (fingerprint fragment_one)
      by (vm_compute; reflexivity).
    apply list_elem_of_here.
  - apply H2. rewrite list_elem_of_In. simpl.
    intros [H | []]. vm_compute in H. discriminate.
  - apply H3. simpl map. apply NoDup_cons. split; [| apply NoDup_singleton].
    rewrite list_elem_of_In. simpl.
    intros [H | []]. vm_compute in H. discriminate.
Defined.

(** * Further properties of the query cache *)

Section CacheMore.

Import OrderedDict.

Implicit Types (k v : str) (d : t).

Lemma get_None_keys k d : get k d = None <-> k ∉ keys d.
Proof.
  unfold keys. induction d as [|[k' v'] d IH]; simpl.
  - split; [intros _ H; by apply elem_of_nil in H | done].
  - rewrite not_elem_of_cons. destruct (decide (k = k')) as [-> | Hne].
    + split; [done | by intros [? _]].
    + rewrite IH. tauto.
Qed.

Lemma set_fresh k v d : get k d = None -> set k v d = d ++ [(k, v)].
Proof.
  induction d as [|[k' v'] d IH]; simpl; [done |].
  destruct (decide (k = k')); [done |]. intros H. by rewrite IH.
Qed.

Lemma get_tail_None k d : get k d = None -> get k (tail d) = None.
Proof.
  destruct d as [|[k' v'] d]; simpl; [done |]. by destruct (decide (k = k')).
Qed.

Lemma get_snoc k v d : get k d = None -> get k (d ++ [(k, v)]) = Some v.
Proof.
  induction d as [|[k' v'] d IH]; simpl.
  - by rewrite decide_True.
  - by destruct (decide (k = k')).
Qed.

Lemma get_snoc_ne k k' v d : k' <> k -> get k' (d ++ [(k, v)]) = get k' d.
Proof.
  intros Hne. induction d as [|[k0 v0] d IH]; simpl.
  - by rewrite decide_False.
  - by destruct (decide (k' = k0)).
Qed.

Lemma cache_store_fresh k v d :
  get k d = None ->
  cache_store k v d
  = (if CACHE_SIZE <? S (length d) then tail d else d) ++ [(k, v)].
Proof.
  intros H. unfold cache_store, popitem_first. rewrite set_fresh by done.
  rewrite length_app. simpl length. rewrite Nat.add_1_r.
  destruct (CACHE_SIZE <? S (length d)) eqn:E; [| done].
  destruct d; [| done]. vm_compute in E. discriminate.
Qed.

Lemma cache_store_get k v d :
  get k d = None -> get k (cache_store k v d) = Some v.
Proof.
  intros H. rewrite cache_store_fresh by done.
  destruct (CACHE_SIZE <? S (length d)); apply get_snoc; [| done].
  by apply get_tail_None.
Qed.

Lemma keys_snoc k v d : keys (d ++ [(k, v)]) = keys d ++ [k].
Proof. unfold keys. by rewrite map_app. Qed.

Lemma keys_tail d : keys (tail d) = tail (keys d).
Proof. by destruct d. Qed.

Lemma NoDup_tail {A} (l : list A) : NoDup l -> NoDup (tail l).
Proof. destruct l; [done |]. by intros [_ ?]%NoDup_cons. Qed.

Lemma cache_store_NoDup k v d :
  get k d = None -> NoDup (keys d) -> NoDup (keys (cache_store k v d)).
Proof.
  intros H Hnd. rewrite cache_store_fresh by done. rewrite keys_snoc.
  apply NoDup_app.
  assert (k ∉ keys d) as Hk by by apply get_None_keys.
  destruct (CACHE_SIZE <? S (length d)).
  - rewrite keys_tail. split; [by apply NoDup_tail |].
    split; [| apply NoDup_singleton].
    intros x Hx ->%list_elem_of_singleton. apply Hk.
    destruct (keys d); [done |]. by apply list_elem_of_further.
  - split; [done |]. split; [| apply NoDup_singleton].
    by intros x Hx ->%list_elem_of_singleton.
Qed.

(** An entry keeps its value when another key is stored; it goes only as
    the oldest entry of a full dictionary. *)
Lemma cache_store_keeps k v d k' v' :
  NoDup (keys d) -> get k d = None -> get k' d = Some v' ->
  get k' (cache_store k v d) = Some v'
  \/ (get k' (cache_store k v d) = None
      /\ CACHE_SIZE <= length d /\ head (keys d) = Some k').
Proof.
  intros Hnd Hk Hk'. rewrite cache_store_fresh by done.
  assert (k' <> k) as Hne by (intros ->; congruence).
  rewrite get_snoc_ne by done.
  destruct (CACHE_SIZE <? S (length d)) eqn:E; [| by left].
  apply Nat.ltb_lt in E.
  destruct d as [|[k0 v0] d]; [done |]. simpl in *.
  destruct (decide (k' = k0)) as [-> | Hne0]; [| by left].
  right. split; [| split; [lia | done]].
  apply get_None_keys. by apply NoDup_cons in Hnd as [? _].
Qed.

Lemma lower_strip_nonempty (q q' : str) :
  strip q <> [] -> lower (strip q') = lower (strip q) -> strip q' <> [].
Proof.
  intros Hq Heq Hq'. rewrite Hq' in Heq. unfold lower in Heq.
  destruct (strip q); [done | discriminate].
Qed.

Lemma sanitize_nonempty (raw : str) : strip raw <> [] -> sanitize raw <> [].
Proof.
  intros Hraw Hempty. apply Hraw.
  apply clean_response_is_prefix_aux.
  destruct (decide (_clean_response raw = [])) as [| Hne]; [done |].
  apply detect_repetition_nonempty in Hne.
  unfold sanitize, _validate_context_response in Hempty.
  destruct (validate_loop_cases generic_indicators
              (lower (_detect_repetition (_clean_response raw)))
              (_detect_repetition (_clean_response raw)))
    as [H | [H _]]; rewrite H in Hempty; done.
Qed.

Lemma sanitize_blank (raw : str) : strip raw = [] -> sanitize raw = [].
Proof.
  intros Hblank. unfold sanitize.
  apply clean_response_is_prefix_aux in Hblank. by rewrite Hblank.
Qed.

(** A call that misses the cache and whose generator returns a text that
    is not blank within the timeout. *)
Lemma generate_in_time (w : world) (ch : chain) (q raw : str)
    (timeout after : N) :
  invoke ch q = Finishes after (Returns raw) ->
  (after <= timeout)%N ->
  strip raw <> [] ->
  generate w ch q timeout
  = (Returned (sanitize raw) after,
     World (cache_store (query_hash q) (sanitize raw) (_query_cache w))
           (chain_calls w ++ [q])).
Proof.
  intros Hinv Hin Hraw. unfold generate. rewrite Hinv.
  apply N.ltb_ge in Hin. rewrite Hin. cbv zeta.
  rewrite bool_decide_eq_false_2 by by apply sanitize_nonempty. done.
Qed.

Lemma ask_question_hit (w : world) (ch : chain) (q value : str)
    (timeout : N) :
  strip q <> [] ->
  get (query_hash q) (_query_cache w) = Some value ->
  ask_question w (Some ch) (PyStr q) timeout = (Returned value 0, w).
Proof.
  intros Hq Hget. unfold ask_question.
  assert (truthy (PyStr q) = true) as ->.
  { destruct q; [done | reflexivity]. }
  simpl. rewrite bool_decide_eq_false_2 by done. by rewrite Hget.
Qed.

(** The cache of [ask_question]'s world is the old one or the old one
    with one fresh key stored. *)
Lemma ask_question_cache_cases (w : world) (ch : option chain)
    (query : pyval) (timeout : N) :
  let w' := (ask_question w ch query timeout).2 in
  _query_cache w' = _query_cache w
  \/ exists q raw,
       get (query_hash q) (_query_cache w) = None
       /\ _query_cache w'
          = cache_store (query_hash q) (sanitize raw) (_query_cache w).
Proof.
  unfold ask_question.
  destruct ch as [ch|]; [| by left].
  destruct (negb (truthy query)); [by left |].
  destruct query as [| | |q| |]; try by left.
  destruct (bool_decide (strip q = [])); [by left |].
  simpl. destruct (get _ _) eqn:Hget; [by left |].
  unfold generate. destruct (invoke ch q) as [after o|]; [| by left].
  destruct (timeout <? after)%N; [by left |].
  destruct o as [text|e]; [| by destruct (exc_kind e); left].
  simpl. destruct (bool_decide (sanitize text = [])); [by left |].
  right. by exists q, text.
Qed.

Lemma ask_question_NoDup (w : world) (ch : option chain) (query : pyval)
    (timeout : N) :
  NoDup (keys (_query_cache w)) ->
  NoDup (keys (_query_cache (ask_question w ch query timeout).2)).
Proof.
  intros Hnd.
  destruct (ask_question_cache_cases w ch query timeout)
    as [-> | (q & raw & Hget & ->)]; [done |].
  by apply cache_store_NoDup.
Qed.

Lemma run_NoDup (ops : list operation) (w : world) :
  NoDup (keys (_query_cache w)) -> NoDup (keys (_query_cache (run ops w))).
Proof.
  revert w. unfold run.
  induction ops as [|op ops IH]; intros w Hw; simpl; [done |].
  apply IH. destruct op as [ch query timeout|]; simpl.
  - by apply ask_question_NoDup.
  - apply NoDup_nil. done.
Qed.

End CacheMore.

(** X9. Storing and looking up: once a question that missed the cache has
    been answered in time with a text that is not blank, every question
    with the same normalised text (trimmed, letter case ignored) is served
    that sanitised answer from the cache, at once, whatever the chain and
    the timeout of the later call, and the chain is not called. *)
Theorem generated_answer_is_served_from_cache (w : world) (ch ch' : chain)
    (q q' raw : str) (timeout timeout' after : N) :
  strip q <> [] ->
  lower (strip q') = lower (strip q) ->
  OrderedDict.get (query_hash q) (_query_cache w) = None ->
  invoke ch q = Finishes after (Returns raw) ->
  (after <= timeout)%N ->
  strip raw <> [] ->
  let first := ask_question w (Some ch) (PyStr q) timeout in
  first.1 = Returned (sanitize raw) after
  /\ chain_calls first.2 = chain_calls w ++ [q]
  /\ ask_question first.2 (Some ch') (PyStr q') timeout'
     = (Returned (sanitize raw) 0, first.2).
Proof.
  intros Hq Hnorm Hmiss Hinv Hin Hraw first. unfold first.
  rewrite ask_question_miss by done.
  rewrite (generate_in_time _ _ _ raw _ after) by done.
  cbn [fst snd chain_calls]. split; [done |]. split; [done |].
  apply ask_question_hit; [by apply (lower_strip_nonempty q) |].
  cbn [_query_cache]. unfold query_hash at 1. rewrite Hnorm.
  fold (query_hash q). by apply cache_store_get.
Qed.

Lemma generated_answer_is_served_from_cache_witness :
  let first :=
    ask_question initial_world (Some (answering (lit "Paris.") 10))
                 (PyStr (lit "What is X?")) 1000 in
  first.1 = Returned (sanitize (lit "Paris.")) 10
  /\ chain_calls first.2 = chain_calls initial_world ++ [lit "What is X?"]
  /\ ask_question first.2 (Some echo) (PyStr (lit "  what is x?  ")) 5
     = (Returned (sanitize (lit "Paris.")) 0, first.2).
Proof.
  apply (generated_answer_is_served_from_cache
           initial_world (answering (lit "Paris.") 10) echo
           (lit "What is X?") (lit "  what is x?  ") (lit "Paris.")
           1000 5 10);
    vm_compute; try reflexivity; discriminate.
Defined.

(** X10. [ask_question] never overwrites a cached answer: in any state
    the pipeline can reach, an entry that is in the cache before a call is
    there with the same value after it, unless the cache was full and the
    entry was its oldest one. *)
Theorem cached_answer_is_never_overwritten (ops : list operation)
    (ch : option chain) (query : pyval) (timeout : N) (k v : str) :
  let w := run ops initial_world in
  let w' := (ask_question w ch query timeout).2 in
  OrderedDict.get k (_query_cache w) = Some v ->
  OrderedDict.get k (_query_cache w') = Some v
  \/ (OrderedDict.get k (_query_cache w') = None
      /\ length (_query_cache w) = CACHE_SIZE
      /\ head (OrderedDict.keys (_query_cache w)) = Some k).
Proof.
  intros w w' Hget.
  assert (NoDup (OrderedDict.keys (_query_cache w))) as Hnd.
  { apply run_NoDup. apply NoDup_nil. done. }
  assert (length (_query_cache w) <= CACHE_SIZE) as Hlen.
  { apply (run_cache (fun _ => True)); [done |].
    split; [apply Forall_nil; done | simpl; lia]. }
  destruct (ask_question_cache_cases w ch query timeout)
    as [Heq | (q & raw & Hmiss & Heq)]; fold w' in Heq; rewrite Heq.
  - by left.
  - destruct (cache_store_keeps (query_hash q) (sanitize raw)
                (_query_cache w) k v Hnd Hmiss Hget)
      as [H | (H & Hfull & Hhead)]; [by left |].
    right. split; [done |]. split; [lia | done].
Qed.

Lemma cached_answer_is_never_overwritten_witness :
  let w := run [ask_numbered 0] initial_world in
  let w' := (ask_question w (Some echo) (PyStr (numbered_question 1))
                          DEFAULT_TIMEOUT).2 in
  OrderedDict.get (query_hash (numbered_question 0)) (_query_cache w')
  = Some (lit "answer to question 0")
  \/ (OrderedDict.get (query_hash (numbered_question 0)) (_query_cache w')
      = None
      /\ length (_query_cache w) = CACHE_SIZE
      /\ head (OrderedDict.keys (_query_cache w))
         = Some (query_hash (numbered_question 0))).
Proof.
  apply (cached_answer_is_never_overwritten
           [ask_numbered 0] (Some echo) (PyStr (numbered_question 1))
           DEFAULT_TIMEOUT).
  vm_compute. reflexivity.
Defined.

(** X11. Eviction is first in, first out: a freshly generated answer is
    appended as the newest entry; if the cache already held [CACHE_SIZE]
    entries the oldest one, and no other, is dropped, and otherwise no
    entry is. *)
Theorem new_answer_evicts_only_the_oldest (w : world) (ch : chain)
    (q raw : str) (timeout after : N) :
  strip q <> [] ->
  OrderedDict.get (query_hash q) (_query_cache w) = None ->
  invoke ch q = Finishes after (Returns raw) ->
  (after <= timeout)%N ->
  strip raw <> [] ->
  length (_query_cache w) <= CACHE_SIZE ->
  let w' := (ask_question w (Some ch) (PyStr q) timeout).2 in
  _query_cache w'
  = (if decide (length (_query_cache w) = CACHE_SIZE)
     then tail (_query_cache w) else _query_cache w)
    ++ [(query_hash q, sanitize raw)].
Proof.
  intros Hq Hmiss Hinv Hin Hraw Hlen w'. unfold w'.
  rewrite ask_question_miss by done.
  rewrite (generate_in_time _ _ _ raw _ after) by done.
  cbn [snd _query_cache]. rewrite cache_store_fresh by done.
  destruct (decide (length (_query_cache w) = CACHE_SIZE)) as [E | E].
  - rewrite E. by rewrite (proj2 (Nat.ltb_lt _ _)) by lia.
  - by rewrite (proj2 (Nat.ltb_ge _ _)) by lia.
Qed.

Lemma new_answer_evicts_only_the_oldest_witness :
  let w := run [ask_numbered 0] initial_world in
  let w' := (ask_question w (Some echo) (PyStr (numbered_question 1))
                          DEFAULT_TIMEOUT).2 in
  _query_cache w'
  = (if decide (length (_query_cache w) = CACHE_SIZE)
     then tail (_query_cache w) else _query_cache w)
    ++ [(query_hash (numbered_question 1),
         sanitize (lit "answer to " ++ numbered_question 1))].
Proof.
  apply (new_answer_evicts_only_the_oldest
           (run [ask_numbered 0] initial_world) echo
           (numbered_question 1) (lit "answer to " ++ numbered_question 1)
           DEFAULT_TIMEOUT 1);
    vm_compute; try reflexivity; try discriminate; lia.
Defined.

Section AskQuestionMore.

Lemma generate_calls (w : world) (ch : chain) (q : str) (timeout : N) :
  chain_calls (generate w ch q timeout).2 = chain_calls w ++ [q].
Proof.
  unfold generate. destruct (invoke ch q) as [after o|]; [| done].
  destruct (timeout <? after)%N; [done |].
  destruct o as [text|e]; [done | by destruct (exc_kind e)].
Qed.

Lemma generate_blank (w : world) (ch : chain) (q raw : str)
    (timeout after : N) :
  invoke ch q = Finishes after (Returns raw) ->
  (after <= timeout)%N ->
  strip raw = [] ->
  generate w ch q timeout
  = (Returned [] after, World (_query_cache w) (chain_calls w ++ [q])).
Proof.
  intros Hinv Hin Hraw. unfold generate. rewrite Hinv.
  apply N.ltb_ge in Hin. rewrite Hin. cbv zeta.
  rewrite (sanitize_blank raw Hraw). done.
Qed.

Lemma generate_raises (w : world) (ch : chain) (q : str) (e : pyexc)
    (timeout after : N) :
  invoke ch q = Finishes after (Raises e) ->
  (after <= timeout)%N ->
  is_Exception e = true ->
  generate w ch q timeout
  = (Returned match exc_kind e with
              | FuturesTimeoutError => NO_INFORMATION
              | _ => ERROR_MESSAGE
              end after,
     World (_query_cache w) (chain_calls w ++ [q])).
Proof.
  intros Hinv Hin He. unfold generate. rewrite Hinv.
  apply N.ltb_ge in Hin. rewrite Hin.
  unfold is_Exception in He. by destruct (exc_kind e).
Qed.

End AskQuestionMore.

(** X12. What is not an answer is not cached: when the generator returns
    only whitespace the caller gets the empty string, and when it raises an
    exception the caller gets the fixed message; in both cases the cache
    is left as it was, so the same question asked again calls the chain
    again. *)
Theorem failed_generation_is_not_cached (w : world) (ch : chain) (q : str)
    (timeout after : N) (o : outcome) :
  strip q <> [] ->
  OrderedDict.get (query_hash q) (_query_cache w) = None ->
  invoke ch q = Finishes after o ->
  (after <= timeout)%N ->
  match o with
  | Returns raw => strip raw = []
  | Raises e => is_Exception e = true
  end ->
  let first := ask_question w (Some ch) (PyStr q) timeout in
  first.1
  = Returned match o with
             | Returns _ => []
             | Raises e => match exc_kind e with
                           | FuturesTimeoutError => NO_INFORMATION
                           | _ => ERROR_MESSAGE
                           end
             end after
  /\ _query_cache first.2 = _query_cache w
  /\ forall (ch' : chain) (timeout' : N),
       chain_calls (ask_question first.2 (Some ch') (PyStr q) timeout').2
       = chain_calls w ++ [q; q].
Proof.
  intros Hq Hmiss Hinv Hin Ho first.
  assert (first = (first.1, World (_query_cache w) (chain_calls w ++ [q]))
          /\ first.1
             = Returned match o with
                        | Returns _ => []
                        | Raises e => match exc_kind e with
                                      | FuturesTimeoutError => NO_INFORMATION
                                      | _ => ERROR_MESSAGE
                                      end
                        end after) as [Hw Hans].
  { unfold first. rewrite ask_question_miss by done.
    destruct o as [raw|e].
    - by rewrite (generate_blank _ _ _ raw _ after).
    - by rewrite (generate_raises _ _ _ e _ after). }
  split; [done |]. rewrite Hw. cbn [snd _query_cache]. split; [done |].
  intros ch' timeout'. rewrite ask_question_miss by done.
  rewrite generate_calls. cbn [chain_calls]. by rewrite <- app_assoc.
Qed.

Lemma failed_generation_is_not_cached_witness :
  let first :=
    ask_question initial_world (Some (answering [" "%char; LF] 10))
                 (PyStr (lit "Where?")) 1000 in
  first.1 = Returned [] 10
  /\ _query_cache first.2 = []
  /\ chain_calls (ask_question first.2 (Some echo) (PyStr (lit "Where?"))
                               1000).2
     = [lit "Where?"; lit "Where?"].
Proof.
  destruct (failed_generation_is_not_cached
              initial_world (answering [" "%char; LF] 10) (lit "Where?")
              1000 10 (Returns [" "%char; LF])) as (H1 & H2 & H3);
    [vm_compute; discriminate | reflexivity | reflexivity
    | vm_compute; discriminate | reflexivity |].
  split; [exact H1 | split; [exact H2 | apply H3]].
Defined.

(** X13. [clear_query_cache] empties the cache and touches nothing else:
    the next question that is not blank is generated anew, whatever had
    been cached under it, and the cache then holds that one answer at
    most. *)
Theorem clear_query_cache_forgets_answers (w : world) (ch : chain)
    (q : str) (timeout : N) :
  strip q <> [] ->
  let w' := clear_query_cache w in
  let next := ask_question w' (Some ch) (PyStr q) timeout in
  _query_cache w' = []
  /\ chain_calls w' = chain_calls w
  /\ chain_calls next.2 = chain_calls w ++ [q]
  /\ (_query_cache next.2 = []
      \/ exists answer, _query_cache next.2 = [(query_hash q, answer)]).
Proof.
  intros Hq w' next. split; [done |]. split; [done |].
  unfold next. rewrite ask_question_miss by done.
  split; [by rewrite generate_calls |].
  unfold generate. destruct (invoke ch q) as [after o|]; [| by left].
  destruct (timeout <? after)%N; [by left |].
  destruct o as [text|e]; [| by destruct (exc_kind e); left].
  simpl. destruct (bool_decide (sanitize text = [])); [by left |].
  right. by eexists.
Qed.

Lemma clear_query_cache_forgets_answers_witness :
  let w := run [ask_numbered 0] initial_world in
  let w' := clear_query_cache w in
  let next := ask_question w' (Some echo) (PyStr (numbered_question 0))
                           DEFAULT_TIMEOUT in
  _query_cache w' = []
  /\ chain_calls w' = chain_calls w
  /\ chain_calls next.2 = chain_calls w ++ [numbered_question 0]
  /\ (_query_cache next.2 = []
      \/ exists answer,
           _query_cache next.2
           = [(query_hash (numbered_question 0), answer)]).
Proof.
  apply (clear_query_cache_forgets_answers
           (run [ask_numbered 0] initial_world) echo (numbered_question 0)
           DEFAULT_TIMEOUT).
  vm_compute. discriminate.
Defined.

(** * Further properties of the request handler *)

(** X14. The shape of every response the handler writes: the status is
    "success" with a time, and then the server was ready and the request
    carried a question that is not empty; or the status is "error" without
    a time, and the answer is one of the two fixed refusals or starts with
    "Internal Error: ". *)
Theorem response_wire_format (w w' : world) (rag_chain : option chain)
    (is_ready : bool) (req : request) (r : response) :
  handle_client w rag_chain is_ready req = (Sent r, w') ->
  (status r = lit "success"
   /\ (exists elapsed, time r = Some elapsed)
   /\ is_ready = true
   /\ exists question, req = JsonObject (Some question)
                       /\ truthy question = true)
  \/ (status r = lit "error"
      /\ time r = None
      /\ (answer r = EMPTY_QUESTION
          \/ answer r = STILL_LOADING
          \/ exists text, answer r = lit "Internal Error: " ++ text)).
Proof.
  assert (forall question,
            process w rag_chain is_ready question = (Sent r, w') ->
            (status r = lit "success"
             /\ (exists elapsed, time r = Some elapsed)
             /\ is_ready = true /\ truthy question = true)
            \/ (status r = lit "error"
                /\ time r = None
                /\ (answer r = EMPTY_QUESTION
                    \/ answer r = STILL_LOADING
                    \/ exists text, answer r = lit "Internal Error: " ++ text)))
    as Hprocess.
  { intros question. unfold process.
    destruct (truthy question); simpl negb; cbv iota.
    - destruct is_ready; simpl negb; cbv iota.
      + destruct (ask_question w rag_chain question DEFAULT_TIMEOUT)
          as [[value elapsed|e|] w0].
        * intros [= <- _]. left. simpl. naive_solver.
        * destruct (is_Exception e); [| done].
          intros [= <- _]. right. simpl. naive_solver.
        * done.
      + intros [= <- _]. right. simpl. naive_solver.
    - intros [= <- _]. right. simpl. naive_solver. }
  destruct req as [| | | |[question|]]; simpl; try done.
  - intros H. destruct (Hprocess _ H) as [(_ & _ & _ & Ht) | Herr];
      [done | by right].
  - intros H. destruct (Hprocess _ H) as [(Hs & He & Hr & Ht) | Herr];
      [left | by right].
    split; [done |]. split; [done |]. split; [done |]. by exists question.
  - intros H. destruct (Hprocess _ H) as [(_ & _ & _ & Ht) | Herr];
      [done | by right].
Qed.

Lemma response_wire_format_witness :
  (status (Response (lit "error") STILL_LOADING None) = lit "success"
   /\ (exists elapsed,
         time (Response (lit "error") STILL_LOADING None) = Some elapsed)
   /\ false = true
   /\ exists question, JsonObject (Some (PyStr (lit "Where?")))
                       = JsonObject (Some question)
                       /\ truthy question = true)
  \/ (status (Response (lit "error") STILL_LOADING None) = lit "error"
      /\ time (Response (lit "error") STILL_LOADING None) = None
      /\ (answer (Response (lit "error") STILL_LOADING None) = EMPTY_QUESTION
          \/ answer (Response (lit "error") STILL_LOADING None)
             = STILL_LOADING
          \/ exists text,
               answer (Response (lit "error") STILL_LOADING None)
               = lit "Internal Error: " ++ text)).
Proof.
  apply (response_wire_format initial_world initial_world (Some echo) false
           (JsonObject (Some (PyStr (lit "Where?"))))).
  reflexivity.
Defined.

(** X15. A request without a question, or any request while the models
    are loading, never reaches the chatbot: the state is left as it was,
    and the handler closes the socket silently or sends one of the two
    fixed refusals.  The emptiness check comes first, so the loading
    refusal is only sent for a question that is not empty. *)
Theorem refused_request_never_reaches_chatbot (w : world)
    (rag_chain : option chain) (is_ready : bool) (req : request) :
  is_ready = false
  \/ (forall question,
        req = JsonObject (Some question) -> truthy question = false) ->
  let r := handle_client w rag_chain is_ready req in
  r.2 = w
  /\ (r.1 = ClosedWithoutResponse
      \/ r.1 = Sent (Response (lit "error") EMPTY_QUESTION None)
      \/ r.1 = Sent (Response (lit "error") STILL_LOADING None))
  /\ (r.1 = Sent (Response (lit "error") STILL_LOADING None) ->
      exists question,
        req = JsonObject (Some question) /\ truthy question = true).
Proof.
  intros Hrefused r. unfold r.
  destruct req as [| | | |[question|]]; simpl;
    try (split; [done | split; [by auto | done]]).
  unfold process. destruct (truthy question) eqn:Ht; simpl negb; cbv iota.
  - destruct Hrefused as [-> | Hempty].
    + simpl. split; [done |]. split; [by auto |]. intros _. by exists question.
    + by rewrite (Hempty question) in Ht.
  - simpl. split; [done |]. split; [by auto | done].
Qed.

Lemma refused_request_never_reaches_chatbot_witness :
  let r := handle_client initial_world (Some echo) false
             (JsonObject (Some (PyStr (lit "Where?")))) in
  r.2 = initial_world
  /\ (r.1 = ClosedWithoutResponse
      \/ r.1 = Sent (Response (lit "error") EMPTY_QUESTION None)
      \/ r.1 = Sent (Response (lit "error") STILL_LOADING None))
  /\ (r.1 = Sent (Response (lit "error") STILL_LOADING None) ->
      exists question,
        JsonObject (Some (PyStr (lit "Where?"))) = JsonObject (Some question)
        /\ truthy question = true).
Proof.
  apply (refused_request_never_reaches_chatbot initial_world (Some echo)
           false (JsonObject (Some (PyStr (lit "Where?"))))).
  left. reflexivity.
Defined.

(** X16. The two warnings of [ask_question] travel as answers: for a
    ready server, a question of whitespace only, or any question that is
    not empty while no chain is set, is answered with status "success",
    the warning as the answer and no time spent; the state is left as it
    was. *)
Theorem warnings_are_sent_as_success (w : world) (rag_chain : option chain)
    (question : pyval) :
  truthy question = true ->
  rag_chain = None \/ (exists q, question = PyStr q /\ strip q = []) ->
  handle_client w rag_chain true (JsonObject (Some question))
  = (Sent (Response (lit "success")
                    match rag_chain with
                    | None => NOT_INITIALIZED
                    | Some _ => INVALID_QUESTION
                    end (Some 0%N)), w).
Proof.
  intros Ht Hwarn. simpl. unfold process. rewrite Ht. simpl negb. cbv iota.
  unfold ask_question. destruct rag_chain as [ch|]; [| done].
  destruct Hwarn as [| (q & -> & Hblank)]; [done |].
  rewrite Ht. simpl negb. cbv iota.
  by rewrite bool_decide_eq_true_2.
Qed.

Lemma warnings_are_sent_as_success_witness :
  handle_client initial_world (Some echo) true
                (JsonObject (Some (PyStr [" "%char; LF])))
  = (Sent (Response (lit "success") INVALID_QUESTION (Some 0%N)),
     initial_world).
Proof.
  apply (warnings_are_sent_as_success initial_world (Some echo)
           (PyStr [" "%char; LF])); [reflexivity |].
  right. exists [" "%char; LF]. split; reflexivity.
Defined.

(** * The chat loop *)

Section ChatLoop.

Implicit Types (w : world) (qa_chain : chain) (lines : list str)
         (events before rest : list typed).



Lemma main_loop_line w qa_chain user_query rest :
  main_loop w qa_chain (Line user_query :: rest)
  = if is_exit user_query then ([], Goodbye, w)
    else if bool_decide (strip user_query = [])
    then main_loop w qa_chain rest
    else
      match ask_question w (Some qa_chain) (PyStr user_query)
                         DEFAULT_TIMEOUT with
      | (Returned response _, w') =>
          let '(out, ending, final) := main_loop w' qa_chain rest in
          (Answer response :: out, ending, final)
      | (Raised e, w') =>
          match exc_kind e with
          | KeyboardInterrupt => ([], Goodbye, w')
          | BaseExceptionOnly => ([], LeftBy e, w')
          | _ =>
              let '(out, ending, final) := main_loop w' qa_chain rest in
              (Error (exc_str e) :: out, ending, final)
          end
      | (NeverReturns, w') => ([], Hangs, w')
      end.
Proof. reflexivity. Qed.

Lemma main_loop_at_stop w qa_chain stop rest :
  stops stop = true ->
  main_loop w qa_chain (stop :: rest) = ([], Goodbye, w).
Proof.
  destruct stop as [user_query|]; [| done].
  intros H. rewrite main_loop_line. simpl in H. by rewrite H.
Qed.

Lemma main_loop_stop w qa_chain before stop rest :
  stops stop = true ->
  main_loop w qa_chain (before ++ stop :: rest)
  = main_loop w qa_chain (before ++ [stop]).
Proof.
  intros Hstop. revert w.
  induction before as [|[line|] before IH]; intros w.
  - by rewrite !app_nil_l, !main_loop_at_stop.
  - rewrite <- !app_comm_cons, !main_loop_line.
    destruct (is_exit line); [done |].
    destruct (bool_decide (strip line = [])); [apply IH |].
    destruct (ask_question w (Some qa_chain) (PyStr line) DEFAULT_TIMEOUT)
      as [[response elapsed|e|] w']; [| | done].
    + by rewrite IH.
    + destruct (exc_kind e); try done; by rewrite IH.
  - done.
Qed.

(** An exception comes out of [ask_question] for a string question only
    as one the chain has raised and that is no [Exception]. *)
Lemma ask_question_raised w w' qa_chain (query : str) (timeout : N)
    (e : pyexc) :
  ask_question w (Some qa_chain) (PyStr query) timeout = (Raised e, w') ->
  exists after, invoke qa_chain query = Finishes after (Raises e).
Proof.
  unfold ask_question.
  destruct (negb (truthy (PyStr query))); [done |].
  destruct (bool_decide (strip query = [])); [done |].
  simpl. destruct (OrderedDict.get _ _); [done |].
  unfold generate. destruct (invoke qa_chain query) as [after o|]; [| done].
  destruct (timeout <? after)%N; [done |].
  destruct o as [text|e']; [done |].
  destruct (exc_kind e'); try done; intros [= <- _]; by exists after.
Qed.

Lemma main_loop_goodbye w qa_chain events :
  (main_loop w qa_chain events).1.2 = Goodbye ->
  (exists before stop rest,
     events = before ++ stop :: rest
     /\ stops stop = true
     /\ Forall (fun event => stops event = false) before)
  \/ (exists query after e,
        Line query ∈ events
        /\ invoke qa_chain query = Finishes after (Raises e)
        /\ exc_kind e = KeyboardInterrupt).
Proof.
  revert w. induction events as [|[line|] events IH]; intros w; [done | |].
  - rewrite main_loop_line. destruct (is_exit line) eqn:Hline.
    { intros _. left. exists [], (Line line), events. by split; [| split]. }
    assert (forall w0,
              (main_loop w0 qa_chain events).1.2 = Goodbye ->
              (exists before stop rest,
                 Line line :: events = before ++ stop :: rest
                 /\ stops stop = true
                 /\ Forall (fun event => stops event = false) before)
              \/ (exists query after e,
                    Line query ∈ Line line :: events
                    /\ invoke qa_chain query = Finishes after (Raises e)
                    /\ exc_kind e = KeyboardInterrupt)) as Hrest.
    { intros w0 [(before & stop & rest & -> & Hstop & Hbefore)
                 | (query & after & e & Hin & Hinv & Hkind)]%IH.
      - left. exists (Line line :: before), stop, rest.
        split; [done |]. split; [done |]. by constructor.
      - right. exists query, after, e.
        split; [by apply list_elem_of_further | done]. }
    destruct (bool_decide (strip line = [])); [apply Hrest |].
    destruct (ask_question w (Some qa_chain) (PyStr line) DEFAULT_TIMEOUT)
      as [[response elapsed|e|] w'] eqn:Hask; [| | done].
    + specialize (Hrest w').
      destruct (main_loop w' qa_chain events) as [[out ending] final].
      apply Hrest.
    + apply ask_question_raised in Hask as [after Hinv].
      specialize (Hrest w').
      destruct (exc_kind e) eqn:Hkind; try done;
        try (destruct (main_loop w' qa_chain events) as [[out ending] final];
             apply Hrest).
      intros _. right. exists line, after, e.
      split; [apply list_elem_of_here | done].
  - intros _. left. exists [], CtrlC, events. by split; [| split].
Qed.


End ChatLoop.

(** X17. The chat loop says goodbye only after an exit or an interrupt:
    when it ends with its goodbye, a line that reads "exit" or "quit"
    exactly, in any letter case, or a Ctrl-C was given at the prompt, or
    a call of the chain was interrupted from the keyboard.  Nothing given
    after the first such line or Ctrl-C has any effect.  Without them, and
    with a chain whose calls are never interrupted, the loop does not end
    with its goodbye, and so not when the input just ends. *)
Theorem goodbye_only_on_exit_or_interrupt (w : world) (qa_chain : chain)
    (events : list typed) :
  ((main_loop w qa_chain events).1.2 = Goodbye ->
   (exists before stop rest,
      events = before ++ stop :: rest
      /\ stops stop = true
      /\ Forall (fun event => stops event = false) before)
   \/ (exists query after e,
         Line query ∈ events
         /\ invoke qa_chain query = Finishes after (Raises e)
         /\ exc_kind e = KeyboardInterrupt))
  /\ (forall before stop rest,
        events = before ++ stop :: rest ->
        stops stop = true ->
        main_loop w qa_chain events = main_loop w qa_chain (before ++ [stop]))
  /\ (Forall (fun event => stops event = false) events ->
      (forall query after e,
         invoke qa_chain query = Finishes after (Raises e) ->
         exc_kind e <> KeyboardInterrupt) ->
      (main_loop w qa_chain events).1.2 <> Goodbye)
  /\ (forall user_query,
        stops (Line user_query) = true
        <-> lower user_query ∈ [lit "exit"; lit "quit"]).
Proof.
  split; [apply main_loop_goodbye |]. split; [| split].
  - intros before stop rest -> Hstop. by apply main_loop_stop.
  - intros Hnone Hcalm
      [(before & stop & rest & -> & Hstop & _)
       | (query & after & e & _ & Hinv & Hkind)]%main_loop_goodbye.
    + rewrite Forall_app, Forall_cons in Hnone.
      destruct Hnone as (_ & Hno & _). congruence.
    + by apply (Hcalm query after e).
  - intros user_query. simpl. unfold is_exit. apply bool_decide_eq_true.
Qed.

Lemma goodbye_only_on_exit_or_interrupt_witness :
  main_loop initial_world echo
            [Line (lit "Where?"); Line (lit "Exit"); Line (lit "When?")]
  = main_loop initial_world echo ([Line (lit "Where?")] ++ [Line (lit "Exit")])
  /\ main_loop initial_world echo [Line (lit "Where?"); CtrlC; Line (lit "x")]
     = main_loop initial_world echo ([Line (lit "Where?")] ++ [CtrlC])
  /\ (main_loop initial_world echo [Line (lit "Where?"); Line (lit " exit")]).1.2
     <> Goodbye.
Proof.
  destruct (goodbye_only_on_exit_or_interrupt initial_world echo
              [Line (lit "Where?"); Line (lit "Exit"); Line (lit "When?")])
    as (_ & H1 & _).
  destruct (goodbye_only_on_exit_or_interrupt initial_world echo
              [Line (lit "Where?"); CtrlC; Line (lit "x")])
    as (_ & H2 & _).
  destruct (goodbye_only_on_exit_or_interrupt initial_world echo
              [Line (lit "Where?"); Line (lit " exit")]) as (_ & _ & H3 & _).
  split; [| split].
  - by apply (H1 [Line (lit "Where?")] (Line (lit "Exit"))
                 [Line (lit "When?")]).
  - by apply (H2 [Line (lit "Where?")] CtrlC [Line (lit "x")]).
  - apply H3.
    + repeat constructor.
    + intros query after e Hinv. simpl in Hinv. discriminate Hinv.
Defined.

(** The goodbye after an interrupted call: the loop ends as on "exit". *)
Example interrupted_call_says_goodbye :
  main_loop initial_world interrupted [Line (lit "Where?"); Line (lit "When?")]
  = ([], Goodbye, World [] [lit "Where?"]).
Proof. vm_compute. reflexivity. Qed.



(** * Model loading *)

Section ModelLoader.

Lemma split_on_head (sep : ascii) (s : str) :
  let base := hd [] (split_on sep s) in
  (sep ∉ base) /\ (s = base \/ exists rest, s = base ++ sep :: rest).
Proof.
  induction s as [|c s IH]; simpl.
  - split; [by intros ?%elem_of_nil | by left].
  - destruct (decide (c = sep)) as [-> | Hne]; simpl.
    + split; [by intros ?%elem_of_nil | right; by exists s].
    + destruct IH as [Hno Hs].
      destruct (split_on sep s) as [|h t]; simpl in *.
      * split; [| destruct Hs as [-> | [rest ->]]; [by left | right; by exists rest]].
        intros [? | ?%elem_of_nil]%elem_of_cons; congruence.
      * split.
        -- intros [? | ?]%elem_of_cons; [congruence | done].
        -- destruct Hs as [-> | [rest ->]]; [by left | right; by exists rest].
Qed.

Lemma split_on_head_prefix (sep : ascii) (base rest : str) :
  sep ∉ base -> hd [] (split_on sep (base ++ sep :: rest)) = base.
Proof.
  induction base as [|c base IH]; intros Hno; simpl.
  - by rewrite decide_True.
  - apply not_elem_of_cons in Hno as [Hc Hno].
    rewrite decide_False by done. specialize (IH Hno).
    destruct (split_on sep (base ++ sep :: rest)); simpl in *; congruence.
Qed.

Lemma split_on_head_whole (sep : ascii) (base : str) :
  sep ∉ base -> hd [] (split_on sep base) = base.
Proof.
  induction base as [|c base IH]; intros Hno; simpl; [done |].
  apply not_elem_of_cons in Hno as [Hc Hno].
  rewrite decide_False by done. specialize (IH Hno).
  destruct (split_on sep base); simpl in *; congruence.
Qed.

Lemma load_llm_cached (m : models) (env : ollama) (model_name : str)
    (instance : OllamaLLM) :
  _llm_instance m = Some instance ->
  load_llm m env model_name = (Got (Some instance), m).
Proof. intros H. unfold load_llm. by rewrite H. Qed.

Lemma get_embedding_model_cached (m : models) (env : ollama)
    (instance : OllamaEmbeddings) :
  _embedding_instance m = Some instance ->
  get_embedding_model m env = (Got (Some instance), m).
Proof. intros H. unfold get_embedding_model. by rewrite H. Qed.

(** A loader that hands out an instance has it in the cache. *)
Lemma load_llm_got (m m' : models) (env : ollama) (model_name : str)
    (instance : OllamaLLM) :
  load_llm m env model_name = (Got (Some instance), m') ->
  _llm_instance m' = Some instance
  /\ _embedding_instance m' = _embedding_instance m
  /\ (_llm_instance m = Some instance
      \/ _llm_instance m = None /\ instance = LLM model_name).
Proof.
  unfold load_llm, caught. destruct (_llm_instance m) as [cached|] eqn:Hm.
  - intros [= <- <-]. by auto.
  - destruct (negb _); [done |]. destruct (negb _); [done |].
    destruct (constructor_raises env) as [e|].
    { by destruct (is_Exception e). }
    destruct (test_raises env) as [e|].
    { by destruct (is_Exception e). }
    intros [= <- <-]. by auto.
Qed.

Lemma get_embedding_model_got (m m' : models) (env : ollama)
    (instance : OllamaEmbeddings) :
  get_embedding_model m env = (Got (Some instance), m') ->
  _embedding_instance m' = Some instance
  /\ _llm_instance m' = _llm_instance m.
Proof.
  unfold get_embedding_model, caught.
  destruct (_embedding_instance m) as [cached|] eqn:Hm.
  - intros [= <- <-]. by auto.
  - destruct (constructor_raises env) as [e|].
    { by destruct (is_Exception e). }
    destruct (test_raises env) as [e|].
    { by destruct (is_Exception e). }
    intros [= <- <-]. by auto.
Qed.

End ModelLoader.

(** X19. The language model is loaded once: after a call of [load_llm]
    that returned an instance, every later call returns that same
    instance, whatever Ollama shows then and whatever model name is asked
    for; an instance returned from an empty cache is one built for the
    name asked.  After [cleanup_models] a load needs Ollama again. *)
Theorem load_llm_returns_the_cached_instance (m m' : models) (env : ollama)
    (model_name : str) (instance : OllamaLLM) :
  load_llm m env model_name = (Got (Some instance), m') ->
  (forall (env' : ollama) (other_name : str),
     load_llm m' env' other_name = (Got (Some instance), m'))
  /\ (_llm_instance m = None -> llm_model instance = model_name)
  /\ (forall (env' : ollama) (other_name : str),
        is_ollama_running (first_list env') = false ->
        load_llm (cleanup_models m') env' other_name
        = (Got None, cleanup_models m')).
Proof.
  intros (Hcached & _ & Hfrom)%load_llm_got. split; [| split].
  - intros env' other_name. by apply load_llm_cached.
  - intros Hempty. destruct Hfrom as [? | [_ ->]]; [congruence | done].
  - intros env' other_name Hdown. unfold load_llm. simpl.
    by rewrite Hdown.
Qed.

Lemma load_llm_returns_the_cached_instance_witness :
  let m' := (load_llm (Models None None) ollama_up LLM_MODEL_NAME).2 in
  load_llm m' ollama_down (lit "another-model")
  = (Got (Some (LLM LLM_MODEL_NAME)), m').
Proof.
  intros m'.
  apply (load_llm_returns_the_cached_instance
           (Models None None) m' ollama_up LLM_MODEL_NAME
           (LLM LLM_MODEL_NAME)).
  reflexivity.
Defined.

(** X20. A load whose test call fails is reported as a failure and yet
    leaves the untested instance in the cache: [load_llm] returns [None],
    and every later call returns the instance without looking at Ollama
    and without a test call. *)
Theorem load_llm_keeps_the_untested_instance (m : models) (env : ollama)
    (model_name : str) (e : pyexc) :
  _llm_instance m = None ->
  is_ollama_running (first_list env) = true ->
  check_ollama_model (second_list env) model_name = true ->
  constructor_raises env = None ->
  test_raises env = Some e ->
  is_Exception e = true ->
  let first := load_llm m env model_name in
  first.1 = Got None
  /\ _llm_instance first.2 = Some (LLM model_name)
  /\ forall (env' : ollama) (other_name : str),
       load_llm first.2 env' other_name
       = (Got (Some (LLM model_name)), first.2).
Proof.
  intros Hm Hrun Hcheck Hbuild Htest He first.
  assert (first = (Got None,
                   Models (Some (LLM model_name)) (_embedding_instance m)))
    as ->.
  { unfold first, load_llm, caught.
    by rewrite Hm, Hrun, Hcheck, Hbuild, Htest, He. }
  split; [done |]. split; [done |].
  intros env' other_name. by apply load_llm_cached.
Qed.

Lemma load_llm_keeps_the_untested_instance_witness :
  let first := load_llm (Models None None) ollama_test_fails LLM_MODEL_NAME in
  first.1 = Got None
  /\ _llm_instance first.2 = Some (LLM LLM_MODEL_NAME)
  /\ forall (env' : ollama) (other_name : str),
       load_llm first.2 env' other_name
       = (Got (Some (LLM LLM_MODEL_NAME)), first.2).
Proof.
  apply (load_llm_keeps_the_untested_instance
           (Models None None) ollama_test_fails LLM_MODEL_NAME
           (PyExc OtherException (lit "connection refused")));
    reflexivity.
Defined.

(** X21. [check_ollama_model] looks for the model name up to its first
    colon anywhere in the listing: the tag asked for plays no part, the
    return code of the listing plays no part, a name that occurs inside
    a longer one is found, and a name that is empty or starts with a
    colon is found in every listing. *)
Theorem check_ollama_model_ignores_the_tag (returncode : Z)
    (stdout base tag : str) :
  ":"%char ∉ base ->
  check_ollama_model (Listed returncode stdout) (base ++ ":"%char :: tag)
  = check_ollama_model (Listed 0 stdout) base
  /\ (check_ollama_model (Listed returncode stdout) base = true
      <-> occurs_in base stdout)
  /\ check_ollama_model (Listed returncode stdout) (":"%char :: tag) = true
  /\ check_ollama_model ListRaises (base ++ ":"%char :: tag) = false.
Proof.
  intros Hbase. unfold check_ollama_model.
  rewrite split_on_head_prefix by done.
  rewrite split_on_head_whole by done.
  split; [done |]. split; [apply contains_spec |]. split; [| done].
  pose proof (split_on_head_prefix ":" [] tag) as Hempty.
  simpl app in Hempty. rewrite Hempty by by intros ?%elem_of_nil.
  by destruct stdout.
Qed.

Lemma check_ollama_model_ignores_the_tag_witness :
  check_ollama_model (Listed 1 (lit "llama3.2:1b")) (lit "llama3:70b")
  = check_ollama_model (Listed 0 (lit "llama3.2:1b")) (lit "llama3")
  /\ (check_ollama_model (Listed 1 (lit "llama3.2:1b")) (lit "llama3") = true
      <-> occurs_in (lit "llama3") (lit "llama3.2:1b")).
Proof.
  destruct (check_ollama_model_ignores_the_tag
              1 (lit "llama3.2:1b") (lit "llama3") (lit "70b"))
    as (H1 & H2 & _).
  - rewrite list_elem_of_In. simpl. intuition discriminate.
  - split; [exact H1 | exact H2].
Defined.

(** X22. [preload_models] reports success only with both instances in
    the cache, and from then on every call reports success without
    looking at Ollama; [cleanup_models] empties the cache, so that a
    preload with Ollama down fails again. *)
Theorem preload_models_success_is_kept (m m' : models)
    (env_llm env_embeddings : ollama) :
  preload_models m env_llm env_embeddings = (Got true, m') ->
  (exists llm embeddings,
     _llm_instance m' = Some llm /\ _embedding_instance m' = Some embeddings)
  /\ (forall env_llm' env_embeddings',
        preload_models m' env_llm' env_embeddings' = (Got true, m'))
  /\ (forall env_llm' env_embeddings',
        is_ollama_running (first_list env_llm') = false ->
        (preload_models (cleanup_models m') env_llm' env_embeddings').1
        <> Got true).
Proof.
  unfold preload_models at 1.
  destruct (load_llm m env_llm LLM_MODEL_NAME) as [[llm|e] m1] eqn:Hllm;
    [| done].
  destruct (get_embedding_model m1 env_embeddings)
    as [[embeddings|e] m2] eqn:Hemb; [| done].
  intros [= Hboth <-]. apply andb_true_iff in Hboth as [Hl He].
  apply bool_decide_eq_true in Hl, He.
  destruct llm as [llm|]; [| done].
  destruct embeddings as [embeddings|]; [| done].
  apply load_llm_got in Hllm as (Hl1 & _ & _).
  apply get_embedding_model_got in Hemb as (He2 & Hl2).
  rewrite Hl1 in Hl2.
  split; [by exists llm, embeddings |]. split.
  - intros env_llm' env_embeddings'. unfold preload_models.
    rewrite (load_llm_cached _ _ _ llm) by done.
    by rewrite (get_embedding_model_cached _ _ embeddings) by done.
  - intros env_llm' env_embeddings' Hdown. unfold preload_models, load_llm.
    simpl _llm_instance. rewrite Hdown. simpl negb. cbv iota.
    destruct (get_embedding_model _ _) as [[emb'|e'] m3]; simpl; [| done].
    by intros [= H].
Qed.

Lemma preload_models_success_is_kept_witness :
  let m' := (preload_models (Models None None) ollama_up ollama_up).2 in
  preload_models m' ollama_down ollama_test_fails = (Got true, m').
Proof.
  intros m'.
  destruct (preload_models_success_is_kept
              (Models None None) m' ollama_up ollama_up) as (_ & H & _);
    [reflexivity | apply H].
Defined.

(** * Indexing *)

Section VectorStore.

Variable embeds : Document -> bool.
Variable progress_callback : callback.
Variable text_chunks : list Document.

Let n := length text_chunks.

Lemma caught_no_store {A} (e : pyexc) (store : A) :
  caught e <> Got (Some store).
Proof. unfold caught. by destruct (is_Exception e). Qed.

(** A run of the loop that gives a store has embedded every batch and
    has seen the callback return from every call. *)
Lemma batch_loop_done (count k : nat) (vector_store : option FAISS)
    (calls calls' : list (nat * nat)) (store : FAISS) :
  (0 < k -> vector_store = Some (take (k * batch_size) text_chunks)) ->
  0 < k + count ->
  n <= (k + count) * batch_size ->
  batch_loop embeds progress_callback text_chunks
             (map (fun j => 0 + j * batch_size) (seq k count))
             vector_store calls
  = (Got (Some store), calls') ->
  store = text_chunks
  /\ calls' = calls ++ map (fun j => (min (j * batch_size + batch_size) n, n))
                           (seq k count)
  /\ forallb embeds (drop (k * batch_size) text_chunks) = true
  /\ forall j, k <= j < k + count ->
               progress_callback (min (j * batch_size + batch_size) n) n = None.
Proof.
  revert k vector_store calls.
  induction count as [|count IH]; intros k vector_store calls Hvs Hpos Hn.
  - simpl. rewrite Nat.add_0_r in Hn, Hpos. intros [= Hstore <-].
    rewrite (Hvs Hpos) in Hstore. injection Hstore as <-.
    rewrite drop_ge by (unfold n in Hn; lia).
    rewrite take_ge by (unfold n in Hn; lia).
    rewrite app_nil_r. repeat split. intros j Hj. lia.
  - simpl seq. simpl map. simpl batch_loop. unfold from_documents.
    assert (forallb embeds (drop (k * batch_size) text_chunks)
            = forallb embeds
                      (take batch_size (drop (k * batch_size) text_chunks))
              && forallb embeds (drop (S k * batch_size) text_chunks)) as ->.
    { replace (S k * batch_size) with (k * batch_size + batch_size)
        by (unfold batch_size; lia).
      by rewrite <- drop_drop, <- forallb_app, take_drop. }
    destruct (forallb embeds (take batch_size
                                (drop (k * batch_size) text_chunks)));
      [| done].
    rewrite andb_true_l.
    match goal with
    | |- context [if ?c then ?first else ?later] =>
        assert ((if c then first else later)
                = Some (take (S k * batch_size) text_chunks)) as ->
    end.
    { destruct k as [|k].
      - by rewrite Nat.mul_0_l, drop_0, Nat.mul_1_l.
      - replace (S k * batch_size =? 0) with false
          by (symmetry; apply Nat.eqb_neq; unfold batch_size; lia).
        rewrite Hvs by lia. rewrite take_take_drop. do 2 f_equal.
        unfold batch_size. lia. }
    fold n.
    destruct (progress_callback (min (k * batch_size + batch_size) n) n)
      as [e|] eqn:Hcall.
    { intros [= Hcaught _]. by apply caught_no_store in Hcaught. }
    intros Hloop.
    apply (IH (S k)) in Hloop as (Hstore & Hcalls & Hrest & Hquiet);
      [| done | lia | by rewrite <- Nat.add_succ_comm in Hn].
    split; [done |]. split; [by rewrite Hcalls, <- app_assoc |].
    split; [done |].
    intros j Hj. destruct (decide (j = k)) as [-> | Hne]; [done |].
    apply Hquiet. lia.
Qed.

(** With a callback that returns from every call the loop gives the
    whole list, or nothing when a document is not embedded. *)
Lemma batch_loop_quiet (count k : nat) (vector_store : option FAISS)
    (calls : list (nat * nat)) :
  (forall current total, progress_callback current total = None) ->
  (0 < k -> vector_store = Some (take (k * batch_size) text_chunks)) ->
  0 < k + count ->
  n <= (k + count) * batch_size ->
  (batch_loop embeds progress_callback text_chunks
              (map (fun j => 0 + j * batch_size) (seq k count))
              vector_store calls).1
  = if forallb embeds (drop (k * batch_size) text_chunks)
    then Got (Some text_chunks) else Got None.
Proof.
  intros Hquiet. revert k vector_store calls.
  induction count as [|count IH]; intros k vector_store calls Hvs Hpos Hn.
  - simpl. rewrite Nat.add_0_r in Hn, Hpos.
    rewrite drop_ge by (unfold n in Hn; lia). simpl.
    rewrite (Hvs Hpos). by rewrite take_ge by (unfold n in Hn; lia).
  - simpl seq. simpl map. simpl batch_loop. unfold from_documents.
    assert (forallb embeds (drop (k * batch_size) text_chunks)
            = forallb embeds
                      (take batch_size (drop (k * batch_size) text_chunks))
              && forallb embeds (drop (S k * batch_size) text_chunks)) as ->.
    { replace (S k * batch_size) with (k * batch_size + batch_size)
        by (unfold batch_size; lia).
      by rewrite <- drop_drop, <- forallb_app, take_drop. }
    destruct (forallb embeds (take batch_size
                                (drop (k * batch_size) text_chunks)));
      [| done].
    rewrite andb_true_l.
    match goal with
    | |- context [if ?c then ?first else ?later] =>
        assert ((if c then first else later)
                = Some (take (S k * batch_size) text_chunks)) as ->
    end.
    { destruct k as [|k].
      - by rewrite Nat.mul_0_l, drop_0, Nat.mul_1_l.
      - replace (S k * batch_size =? 0) with false
          by (symmetry; apply Nat.eqb_neq; unfold batch_size; lia).
        rewrite Hvs by lia. rewrite take_take_drop. do 2 f_equal.
        unfold batch_size. lia. }
    rewrite Hquiet.
    apply (IH (S k)); [done | lia | by rewrite <- Nat.add_succ_comm in Hn].
Qed.

Lemma range_batches_count :
  0 < n ->
  0 < (n - 0 + (batch_size - 1)) / batch_size
  /\ n <= (n - 0 + (batch_size - 1)) / batch_size * batch_size
  /\ ((n - 0 + (batch_size - 1)) / batch_size - 1) * batch_size < n
  /\ (n - 0 + (batch_size - 1)) / batch_size = S ((n - 1) / batch_size).
Proof.
  intros Hn. unfold batch_size.
  pose proof (Nat.div_mod_eq (n - 0 + (50 - 1)) 50) as Hdiv.
  pose proof (Nat.mod_upper_bound (n - 0 + (50 - 1)) 50) as Hmod.
  pose proof (Nat.div_mod_eq (n - 1) 50) as Hdiv'.
  pose proof (Nat.mod_upper_bound (n - 1) 50) as Hmod'.
  lia.
Qed.

(** The reports of a run that goes through all batches. *)
Lemma progress_reports :
  0 < n ->
  map (fun j => (min (j * batch_size + batch_size) n, n))
      (seq 0 ((n - 0 + (batch_size - 1)) / batch_size))
  = map (fun j => (j * batch_size, n)) (seq 1 ((n - 1) / batch_size))
    ++ [(n, n)].
Proof.
  intros Hn.
  destruct (range_batches_count Hn) as (_ & Hupper & Hlower & Heq).
  rewrite Heq in Hupper, Hlower |- *. clear Heq.
  set (c := (n - 1) / batch_size) in *.
  rewrite seq_S, map_app. simpl map at 2. f_equal.
  - rewrite <- seq_shift, map_map. apply map_ext_in.
    intros j [_ Hj]%in_seq. f_equal. unfold batch_size in *. lia.
  - do 2 f_equal. unfold batch_size in *. lia.
Qed.

End VectorStore.

(** What a call with a callback that gives a store has done. *)
Lemma create_vector_store_done (embeds : Document -> bool)
    (progress_callback : callback) (text_chunks : list Document)
    (m : models) (env : ollama) (saves : bool) (store : FAISS) :
  (create_vector_store m env embeds saves text_chunks
                       (Some progress_callback)).1.1
  = Got (Some store) ->
  store = text_chunks
  /\ text_chunks <> []
  /\ forallb embeds text_chunks = true
  /\ saves = true
  /\ (exists embeddings m',
        get_embedding_model m env = (Got (Some embeddings), m'))
  /\ (create_vector_store m env embeds saves text_chunks
                          (Some progress_callback)).1.2
     = (if 100 <? length text_chunks
        then map (fun j => (j * batch_size, length text_chunks))
                 (seq 1 ((length text_chunks - 1) / batch_size))
        else [])
       ++ [(length text_chunks, length text_chunks)]
  /\ exists current, progress_callback current (length text_chunks) = None.
Proof.
  unfold create_vector_store.
  destruct text_chunks as [|chunk chunks] eqn:Hchunks; [done |].
  rewrite <- Hchunks.
  assert (0 < length text_chunks) as Hpos by (rewrite Hchunks; simpl; lia).
  assert (text_chunks <> []) as Hne by by rewrite Hchunks.
  clear Hchunks.
  destruct (get_embedding_model m env) as [[[embeddings|]|e] m'];
    [| done | done].
  destruct (100 <? length text_chunks).
  - unfold range.
    destruct (range_batches_count text_chunks Hpos) as (Hcount & Hupper & _).
    destruct (batch_loop _ _ _ _ _ _) as [[[kept|]|e] calls] eqn:Hloop;
      [| done | done].
    apply (batch_loop_done _ _ _ _ 0) in Hloop as (-> & -> & Hall & Hquiet);
      [| lia | lia | lia].
    rewrite Nat.mul_0_l, drop_0 in Hall.
    destruct saves; [| done]. simpl. intros [= <-].
    split; [done |]. split; [done |]. split; [done |]. split; [done |].
    split; [by eauto |]. split; [by apply progress_reports |].
    eexists. apply (Hquiet 0). lia.
  - unfold single_pass, from_documents.
    destruct (forallb embeds text_chunks); [| done].
    destruct (progress_callback (length text_chunks) (length text_chunks))
      as [e|] eqn:Hcall.
    { simpl. destruct (caught e) as [[kept|]|e'] eqn:Hcaught; try done.
      by apply caught_no_store in Hcaught. }
    destruct saves; [| done]. simpl. intros [= <-].
    split; [done |]. split; [done |]. split; [done |]. split; [done |].
    split; [by eauto |]. split; [done |]. by exists (length text_chunks).
Qed.

(** X23. Batching does not change the index: with a progress callback
    that returns from every call, [create_vector_store] returns the store
    it returns without a callback.  Whatever the callback does, the model
    cache is left the same, and a store that is returned holds every
    chunk once, in the order given, and is the one returned without a
    callback; no store is returned for an empty list of chunks.  A
    callback that raises on every call leaves no store. *)
Theorem batching_does_not_change_the_index (m : models) (env : ollama)
    (embeds : Document -> bool) (saves : bool)
    (text_chunks : list Document) (progress_callback : callback) :
  let batched := create_vector_store m env embeds saves text_chunks
                                     (Some progress_callback) in
  let single := create_vector_store m env embeds saves text_chunks None in
  ((forall current total, progress_callback current total = None) ->
   batched.1.1 = single.1.1)
  /\ batched.2 = single.2
  /\ (forall store, batched.1.1 = Got (Some store) ->
                    store = text_chunks
                    /\ text_chunks <> []
                    /\ single.1.1 = Got (Some store))
  /\ ((forall current total,
         exists e, progress_callback current total = Some e) ->
      forall store, batched.1.1 <> Got (Some store)).
Proof.
  intros batched single.
  assert (forall store, batched.1.1 = Got (Some store) ->
                        store = text_chunks
                        /\ text_chunks <> []
                        /\ single.1.1 = Got (Some store)
                        /\ exists current,
                             progress_callback current (length text_chunks)
                             = None) as Hdone.
  { intros store Hstore.
    apply create_vector_store_done
      in Hstore as (-> & Hne & Hall & -> & (embeddings & m' & Hemb) & _ & Hcall).
    split; [done |]. split; [done |]. split; [| done].
    unfold single, create_vector_store.
    destruct text_chunks as [|chunk chunks]; [done |].
    rewrite Hemb. unfold single_pass, from_documents.
    by rewrite Hall. }
  split; [| split; [| split]].
  - intros Hquiet. unfold batched, single, create_vector_store.
    destruct text_chunks as [|chunk chunks] eqn:Hchunks; [done |].
    rewrite <- Hchunks.
    assert (0 < length text_chunks) as Hpos by (rewrite Hchunks; simpl; lia).
    clear Hchunks batched single Hdone.
    destruct (get_embedding_model m env) as [[[embeddings|]|e] m']; try done.
    destruct (100 <? length text_chunks).
    + unfold range.
      destruct (range_batches_count text_chunks Hpos) as (Hcount & Hupper & _).
      pose proof (batch_loop_quiet embeds progress_callback text_chunks
                    ((length text_chunks - 0 + (batch_size - 1)) / batch_size)
                    0 None [] Hquiet) as Hloop.
      rewrite Nat.mul_0_l, drop_0 in Hloop.
      specialize (Hloop ltac:(lia) ltac:(lia) ltac:(lia)). revert Hloop.
      destruct (batch_loop _ _ _ _ _ _) as [result calls].
      simpl. intros ->. unfold single_pass, from_documents.
      destruct (forallb embeds text_chunks); [| done]. by destruct saves.
    + unfold single_pass, from_documents.
      destruct (forallb embeds text_chunks); [| done].
      rewrite Hquiet. by destruct saves.
  - unfold batched, single, create_vector_store.
    destruct text_chunks as [|chunk chunks] eqn:Hchunks; [done |].
    rewrite <- Hchunks. clear Hchunks batched single Hdone.
    destruct (get_embedding_model m env) as [[[embeddings|]|e] m']; try done.
    destruct (if 100 <? length text_chunks then _ else _)
      as [[[kept|]|e] calls];
      destruct (single_pass embeds None text_chunks) as [[[kept'|]|e'] calls'];
      by destruct saves.
  - intros store Hstore.
    destruct (Hdone store Hstore) as (? & ? & ? & _). done.
  - intros Hfails store Hstore.
    destruct (Hdone store Hstore) as (_ & _ & _ & current & Hcall).
    destruct (Hfails current (length text_chunks)) as [e He]. congruence.
Qed.

Lemma batching_does_not_change_the_index_witness :
  (create_vector_store (Models None None) ollama_up (fun _ => true) true
                       many_chunks (Some quiet)).1.1
  = (create_vector_store (Models None None) ollama_up (fun _ => true) true
                         many_chunks None).1.1
  /\ (create_vector_store (Models None None) ollama_up (fun _ => true) true
                          many_chunks None).1.1
     = Got (Some many_chunks)
  /\ forall store,
       (create_vector_store (Models None None) ollama_up (fun _ => true) true
                            many_chunks (Some failing_callback)).1.1
       <> Got (Some store).
Proof.
  destruct (batching_does_not_change_the_index
              (Models None None) ollama_up (fun _ => true) true many_chunks
              quiet) as (H1 & _ & H3 & _).
  destruct (batching_does_not_change_the_index
              (Models None None) ollama_up (fun _ => true) true many_chunks
              failing_callback) as (_ & _ & _ & H4).
  split; [by apply H1 |]. split.
  - destruct (H3 many_chunks) as (_ & _ & H); [reflexivity | exact H].
  - apply H4. intros current total. by eexists.
Defined.

(** X24. Progress is reported once per batch of 50: when a store is built
    for more than 100 chunks with a callback, the callback is called with
    50, 100, ... for the full batches and, last, with the number of
    chunks; for at most 100 chunks it is called once, with that number. *)
Theorem progress_is_reported_per_batch (m : models) (env : ollama)
    (embeds : Document -> bool) (saves : bool)
    (text_chunks : list Document) (progress_callback : callback)
    (store : FAISS) :
  let done := create_vector_store m env embeds saves text_chunks
                                  (Some progress_callback) in
  let n := length text_chunks in
  done.1.1 = Got (Some store) ->
  done.1.2
  = (if 100 <? n
     then map (fun j => (j * 50, n)) (seq 1 ((n - 1) / 50))
     else [])
    ++ [(n, n)].
Proof.
  intros done n Hstore.
  by apply create_vector_store_done in Hstore as (_ & _ & _ & _ & _ & H & _).
Qed.

Lemma progress_is_reported_per_batch_witness :
  (create_vector_store (Models None None) ollama_up (fun _ => true) true
                       many_chunks (Some quiet)).1.2
  = [(50, 120); (100, 120); (120, 120)].
Proof.
  apply (progress_is_reported_per_batch
           (Models None None) ollama_up (fun _ => true) true many_chunks
           quiet many_chunks).
  reflexivity.
Defined.

(** * The client *)

(** X25. The client keeps the text before the first colon of the address
    entered: an accepted address is never empty and holds no colon, so a
    port is stripped and an IPv6 address is never used as typed; an
    address that is empty or starts with a colon is refused, like a
    cancelled dialog. *)
Theorem server_ip_is_text_before_colon (entered : option str) (host : str) :
  server_ip entered = Some host
  <-> exists s,
        entered = Some s
        /\ host <> []
        /\ (":"%char ∉ host)
        /\ (s = host \/ exists port, s = host ++ ":"%char :: port).
Proof.
  unfold server_ip. split.
  - destruct entered as [s|]; [| done].
    destruct (decide (s = [])) as [-> | Hs]; [done |].
    rewrite (bool_decide_eq_false_2 (s = [])) by done. simpl negb.
    rewrite andb_true_l.
    destruct (bool_decide (":"%char ∈ s)) eqn:Hcolon.
    + destruct (split_on_head ":" s) as [Hno Hsplit].
      destruct (decide (hd [] (split_on ":" s) = [])) as [Hhost | Hhost].
      * by rewrite bool_decide_eq_true_2.
      * rewrite bool_decide_eq_false_2 by done.
        intros [= <-]. by exists s.
    + rewrite bool_decide_eq_false_2 by done. intros [= <-]. exists s.
      apply bool_decide_eq_false in Hcolon. by auto.
  - intros (s & -> & Hhost & Hno & [-> | [port ->]]).
    + rewrite (bool_decide_eq_false_2 (host = [])) by done.
      rewrite (bool_decide_eq_false_2 (":"%char ∈ host)) by done. simpl.
      by rewrite bool_decide_eq_false_2.
    + rewrite bool_decide_eq_false_2 by by destruct host.
      rewrite bool_decide_eq_true_2
        by (apply elem_of_app; right; apply list_elem_of_here).
      simpl. rewrite split_on_head_prefix by done.
      by rewrite bool_decide_eq_false_2.
Qed.

Lemma server_ip_is_text_before_colon_witness :
  server_ip (Some (lit "192.168.1.7:9999")) = Some (lit "192.168.1.7").
Proof.
  apply (proj2 (server_ip_is_text_before_colon
                  (Some (lit "192.168.1.7:9999")) (lit "192.168.1.7"))).
  exists (lit "192.168.1.7:9999").
  split; [reflexivity |]. split; [discriminate |]. split.
  - rewrite list_elem_of_In. simpl. intuition discriminate.
  - right. by exists (lit "9999").
Defined.

(** * Finding and loading documents *)

Section Documents.

Implicit Types (p a b dir stem f : str) (c : ascii).

Lemma lower_app a b : lower (a ++ b) = lower a ++ lower b.
Proof. apply map_app. Qed.

Lemma lower_elem c a : c ∈ a -> lower_char c ∈ lower a.
Proof. intros H. unfold lower. apply list_elem_of_fmap. by exists c. Qed.

Lemma lower_char_dot c : lower_char c = "."%char -> c = "."%char.
Proof.
  destruct c as [[] [] [] [] [] [] [] []]; vm_compute; congruence.
Qed.

Lemma endswith_app suffix a : endswith suffix (a ++ suffix) = true.
Proof.
  unfold endswith. apply bool_decide_eq_true. rewrite length_app.
  replace (length a + length suffix - length suffix) with (length a) by lia.
  apply drop_app_length.
Qed.

Lemma supported_app stem (extension : str) :
  lower extension ∈ supported_extensions ->
  supported (stem ++ extension) = true.
Proof.
  intros Hext. unfold supported. rewrite lower_app.
  apply existsb_exists. exists (lower extension).
  split; [by apply list_elem_of_In | apply endswith_app].
Qed.

(** An extension the scan accepts is a dot followed by letters. *)
Lemma supported_extension_shape (extension : str) :
  lower extension ∈ supported_extensions ->
  exists letters,
    extension = "."%char :: letters
    /\ ("."%char ∉ letters) /\ ("/"%char ∉ extension).
Proof.
  intros Hext.
  assert (exists ks, lower extension = "."%char :: ks
                     /\ ("."%char ∉ ks) /\ ("/"%char ∉ "."%char :: ks))
    as (ks & Hlow & Hdot & Hsep).
  { unfold supported_extensions in Hext.
    repeat (apply elem_of_cons in Hext as [-> | Hext]);
      [| | | by apply elem_of_nil in Hext];
      eexists; (split; [reflexivity |]);
      split; rewrite list_elem_of_In; simpl; intuition discriminate. }
  destruct extension as [|c letters]; [done |].
  simpl in Hlow. injection Hlow as Hc Hletters.
  apply lower_char_dot in Hc as ->.
  exists letters. split; [done |]. split.
  - intros Hin%lower_elem. rewrite Hletters in Hin. by apply Hdot.
  - intros Hin%lower_elem. simpl in Hin. rewrite Hletters in Hin.
    by apply Hsep.
Qed.

Lemma rfind_app_absent c a b : c ∉ b -> rfind c (a ++ b) = rfind c a.
Proof.
  intros Hb. induction a as [|x a IH]; simpl.
  - induction b as [|y b IHb]; [done |]. simpl.
    apply not_elem_of_cons in Hb as [Hy Hb]. rewrite (IHb Hb).
    destruct (Ascii.eqb_spec y c); [congruence | done].
  - by rewrite IH.
Qed.

Lemma rfind_last c a : rfind c (a ++ [c]) = Some (length a).
Proof.
  induction a as [|x a IH]; simpl.
  - by rewrite Ascii.eqb_refl.
  - by rewrite IH.
Qed.

Lemma rfind_last_app c a b :
  c ∉ b -> rfind c (a ++ c :: b) = Some (length a).
Proof.
  intros Hb. rewrite (cons_middle c a b), app_assoc.
  rewrite rfind_app_absent by done. apply rfind_last.
Qed.

(** Joining a directory and a file name puts the name after a prefix
    that is empty or ends with a slash. *)
Lemma path_join_shape a f :
  f <> [] -> "/"%char ∉ f ->
  exists dir,
    path_join a f = dir ++ f
    /\ (dir = [] \/ exists parent, dir = parent ++ ["/"%char]).
Proof.
  intros Hf Hsep. unfold path_join.
  destruct f as [|c f']; [done |].
  apply not_elem_of_cons in Hsep as [Hc _].
  assert (startswith (lit "/") (c :: f') = false) as ->.
  { change (startswith (lit "/") (c :: f'))
      with (if Ascii.eqb "/"%char c then true else false).
    destruct (Ascii.eqb_spec "/"%char c); [congruence | done]. }
  destruct (decide (a = [])) as [-> | Ha].
  { exists []. by split; [| left]. }
  rewrite (bool_decide_eq_false_2 (a = [])) by done. rewrite orb_false_l.
  unfold endswith. destruct (bool_decide _) eqn:Hend.
  - exists a. split; [done |]. right.
    apply bool_decide_eq_true in Hend.
    exists (take (length a - length (lit "/")) a).
    rewrite <- (take_drop (length a - length (lit "/")) a) at 1.
    by rewrite Hend.
  - exists (a ++ ["/"%char]). split; [by rewrite <- app_assoc |].
    right. by exists a.
Qed.

(** The extension [splitext] finds behind a directory prefix, a stem
    without slash and a dot followed by letters. *)
Lemma splitext_of_joined dir stem (letters : str) :
  dir = [] \/ (exists parent, dir = parent ++ ["/"%char]) ->
  "/"%char ∉ stem -> "."%char ∉ letters -> "/"%char ∉ letters ->
  (splitext (dir ++ stem ++ "."%char :: letters)).2
  = if only_dots stem then [] else "."%char :: letters.
Proof.
  intros Hdir Hstem Hdot Hsep. unfold splitext.
  rewrite (app_assoc dir stem), rfind_last_app by done.
  rewrite <- (app_assoc dir stem).
  assert (match rfind "/" (dir ++ stem ++ "."%char :: letters) with
          | Some sep => S sep
          | None => 0
          end = length dir) as ->.
  { rewrite rfind_app_absent.
    - destruct Hdir as [-> | [parent ->]]; [done |].
      rewrite rfind_last, length_app. simpl. lia.
    - rewrite elem_of_app, elem_of_cons. intros [? | [? | ?]]; done. }
  rewrite length_app.
  rewrite (proj2 (Nat.leb_le _ _)) by lia.
  rewrite drop_app_length.
  replace (length dir + length stem - length dir) with (length stem) by lia.
  rewrite take_app_length.
  destruct (only_dots stem); [done |]. simpl.
  rewrite app_assoc, <- length_app. by rewrite drop_app_length.
Qed.

Lemma collect_spec (doc_dir : str) (names files : list str) :
  collect doc_dir names files
  = files ++ map (path_join doc_dir) (filter (fun f => supported f = true) names).
Proof.
  revert files. induction names as [|f names IH]; intros files; simpl.
  - by rewrite app_nil_r.
  - rewrite filter_cons. destruct (supported f) eqn:Hf.
    + rewrite IH, decide_True by done. by rewrite <- app_assoc.
    + rewrite IH, decide_False by done. done.
Qed.

Lemma load_documents_batch_spec (file_exists : str -> bool)
    (load : loader -> str -> option (list Document))
    (file_paths : list str) :
  load_documents_batch file_exists load file_paths
  = flat_map (load_document file_exists load) file_paths.
Proof.
  unfold load_documents_batch.
  assert (forall all_docs,
            fold_left (fun all_docs path =>
                         all_docs ++ load_document file_exists load path)
                      file_paths all_docs
            = all_docs ++ flat_map (load_document file_exists load) file_paths)
    as H; [| apply H].
  induction file_paths as [|path rest IH]; intros all_docs; simpl.
  - by rewrite app_nil_r.
  - by rewrite IH, <- app_assoc.
Qed.

End Documents.

(** X26. A file the scan selects and the loader built for it: a name made
    of a stem without slash and an extension that reads ".pdf", ".docx"
    or ".txt" in some letter case is selected by [get_all_documents], and
    [load_document] builds the loader of that extension for its path,
    unless the stem is empty or all dots (".pdf", "..txt"): such a file is
    selected too, and is handed to the general loader. *)
Theorem selected_document_loader (doc_dir stem extension : str)
    (names : list str) :
  lower extension ∈ supported_extensions ->
  "/"%char ∉ stem ->
  stem ++ extension ∈ names ->
  let file_path := path_join doc_dir (stem ++ extension) in
  file_path ∈ (get_all_documents (Some names) doc_dir).1
  /\ loader_for file_path
     = if only_dots stem then UnstructuredFileLoader
       else loader_of (lower extension).
Proof.
  intros Hext Hstem Hin file_path. split.
  - simpl. rewrite collect_spec, app_nil_l.
    apply list_elem_of_fmap. exists (stem ++ extension). split; [done |].
    apply list_elem_of_filter. split; [by apply supported_app | done].
  - destruct (supported_extension_shape extension Hext)
      as (letters & -> & Hdot & Hsep).
    apply not_elem_of_cons in Hsep as [_ Hsep].
    destruct (path_join_shape doc_dir (stem ++ "."%char :: letters))
      as (dir & Hjoin & Hdir).
    { by destruct stem. }
    { rewrite elem_of_app, elem_of_cons. intros [? | [? | ?]]; done. }
    unfold file_path, loader_for. rewrite Hjoin. cbv zeta.
    rewrite splitext_of_joined by done.
    by destruct (only_dots stem).
Qed.

Lemma selected_document_loader_witness :
  let names := [lit "notes.md"; lit "Report.PDF"; lit ".txt"] in
  (path_join (lit "documents/") (lit "Report.PDF")
     ∈ (get_all_documents (Some names) (lit "documents/")).1
   /\ loader_for (path_join (lit "documents/") (lit "Report.PDF"))
      = PyPDFLoader)
  /\ (path_join (lit "documents/") (lit ".txt")
        ∈ (get_all_documents (Some names) (lit "documents/")).1
      /\ loader_for (path_join (lit "documents/") (lit ".txt"))
         = UnstructuredFileLoader).
Proof.
  intros names. split.
  - apply (selected_document_loader
             (lit "documents/") (lit "Report") (lit ".PDF") names).
    + apply list_elem_of_here.
    + rewrite list_elem_of_In. simpl. intuition discriminate.
    + apply list_elem_of_further, list_elem_of_here.
  - apply (selected_document_loader
             (lit "documents/") [] (lit ".txt") names).
    + do 2 apply list_elem_of_further. apply list_elem_of_here.
    + by intros ?%elem_of_nil.
    + do 2 apply list_elem_of_further. apply list_elem_of_here.
Defined.

(** X27. One bad file does not stop the batch: a path that does not
    exist, or whose loader raises or extracts nothing, adds no document,
    and the documents of the files before and after it are all loaded, in
    the order of the paths. *)
Theorem bad_file_does_not_stop_the_batch (file_exists : str -> bool)
    (load : loader -> str -> option (list Document))
    (before after : list str) (bad : str) :
  file_exists bad = false
  \/ load (loader_for bad) bad = None
  \/ load (loader_for bad) bad = Some [] ->
  load_documents_batch file_exists load (before ++ bad :: after)
  = load_documents_batch file_exists load before
    ++ load_documents_batch file_exists load after.
Proof.
  intros Hbad. rewrite !load_documents_batch_spec, flat_map_app.
  f_equal. simpl.
  assert (load_document file_exists load bad = []) as ->; [| done].
  unfold load_document. destruct Hbad as [-> | [-> | ->]]; [done | |];
    by destruct (negb (file_exists bad)).
Qed.

Lemma bad_file_does_not_stop_the_batch_witness :
  let file_exists := fun path => bool_decide (path <> lit "gone.pdf") in
  let load := fun (l : loader) (path : str) => Some [Doc path] in
  load_documents_batch file_exists load
                       ([lit "a.txt"] ++ lit "gone.pdf" :: [lit "b.txt"])
  = load_documents_batch file_exists load [lit "a.txt"]
    ++ load_documents_batch file_exists load [lit "b.txt"].
Proof.
  intros file_exists load.
  apply (bad_file_does_not_stop_the_batch
           file_exists load [lit "a.txt"] [lit "b.txt"] (lit "gone.pdf")).
  left. reflexivity.
Defined.
